(** * Docker Compose validator: the [validate] function of the validator widget

    A shallow embedding of [validate] (and of its inner depth-first search
    [hasCycle]) together with the properties of the validator's
    specification.

    The embedding follows the TypeScript source statement by statement:
    - a parsed YAML document is a tree of JavaScript values ([value]);
    - the mutable [errors] array is threaded explicitly, each block of the
      function returning the diagnostics it pushes, in order;
    - the two mutable [Set]s of the search, [visited] and [inStack], are
      finite sets of strings, threaded through [hasCycle] in a state record;
    - [String(x)] can raise a [TypeError]; computations that may raise live
      in the [outcome] monad. *)

From Stdlib Require Import String Ascii List Bool Arith Lia DecimalString.
From stdpp Require Import base decidable list strings gmap sets relations.

Import ListNotations.
Local Open Scope string_scope.
Local Open Scope list_scope.

Set Warnings "-clear-no-such-hyp".

(** Let [simpl] compute string concatenation on literals. *)
#[local] Arguments String.append !_ _ : simpl nomatch.

(** ** Outcomes of a computation *)

(** A call either returns, raises an exception (the only one that can arise
    here is the [TypeError] of a failed conversion to a primitive), or, for
    the fuel-indexed search only, runs out of fuel. *)
Inductive outcome (A : Type) : Type :=
| Ret (a : A)
| Throw (msg : string)
| OutOfFuel.

Arguments Ret {A} a.
Arguments Throw {A} msg.
Arguments OutOfFuel {A}.

Definition bind {A B : Type} (m : outcome A) (k : A -> outcome B) : outcome B :=
  match m with
  | Ret a => k a
  | Throw msg => Throw msg
  | OutOfFuel => OutOfFuel
  end.

Notation "'let*' x ':=' m 'in' k" := (bind m (fun x => k))
  (at level 10, x pattern, m at level 100, k at level 200).

Definition returns {A : Type} (m : outcome A) : Prop := exists a, m = Ret a.

Definition TypeError_primitive : string :=
  "TypeError: Cannot convert object to primitive value".

(** ** JavaScript values produced by the YAML parser *)

(** A number is represented by its decimal rendering ([Number::toString]):
    the validator only ever stringifies numbers, tests their truthiness and
    asks for their [typeof].  A mapping is the list of its own enumerable
    properties in the order in which JavaScript enumerates them (keys that
    are array indices first, then the others in insertion order).  A
    JavaScript object has no two properties of the same name; the properties
    below hold for every list all the same, a read returning the first
    property of a name. *)
#[warnings="-register-all"]
Inductive value : Type :=
| VUndefined
| VNull
| VBool (b : bool)
| VNum (repr : string)
| VStr (s : string)
| VArr (items : list value)
| VObj (props : list (string * value)).

Inductive jstype : Type :=
| TUndefined | TObject | TBoolean | TNumber | TString.

Definition jstype_eqb (a b : jstype) : bool :=
  match a, b with
  | TUndefined, TUndefined | TObject, TObject | TBoolean, TBoolean
  | TNumber, TNumber | TString, TString => true
  | _, _ => false
  end.

(** [typeof v] *)
Definition typeof (v : value) : jstype :=
  match v with
  | VUndefined => TUndefined
  | VNull => TObject
  | VBool _ => TBoolean
  | VNum _ => TNumber
  | VStr _ => TString
  | VArr _ => TObject
  | VObj _ => TObject
  end.

(** [v === null], [v === undefined], [Array.isArray(v)] *)
Definition is_null (v : value) : bool :=
  match v with VNull => true | _ => false end.

Definition is_undefined (v : value) : bool :=
  match v with VUndefined => true | _ => false end.

Definition Array_isArray (v : value) : bool :=
  match v with VArr _ => true | _ => false end.

(** [ToBoolean]: [undefined], [null], [false], [0], [-0], [NaN] and the
    empty string are falsy; every array and object is truthy. *)
Definition truthy (v : value) : bool :=
  match v with
  | VUndefined => false
  | VNull => false
  | VBool b => b
  | VNum repr => negb (String.eqb repr "0" || String.eqb repr "NaN")
  | VStr s => negb (String.eqb s "")
  | VArr _ => true
  | VObj _ => true
  end.

(** The canonical property name of array index [i]. *)
Definition index_key (i : nat) : string :=
  NilZero.string_of_uint (Nat.to_uint i).

Fixpoint indexed_from (i : nat) (items : list value) : list (string * value) :=
  match items with
  | [] => []
  | x :: rest => (index_key i, x) :: indexed_from (S i) rest
  end.

Fixpoint assoc (k : string) (props : list (string * value)) : option value :=
  match props with
  | [] => None
  | (k', v) :: rest => if String.eqb k k' then Some v else assoc k rest
  end.

(** [Object.entries(v)] for a value whose [typeof] is ["object"] and that
    is not [null]: the properties of a mapping, the indexed elements of an
    array.  (The validator never enumerates a primitive.) *)
Definition Object_entries (v : value) : list (string * value) :=
  match v with
  | VObj props => props
  | VArr items => indexed_from 0 items
  | _ => []
  end.

(** [Object.keys(v)] *)
Definition Object_keys (v : value) : list string :=
  map fst (Object_entries v).

(** The property read [v.k] / [v[k]].  The validator reads either one of
    the fixed names [version], [services], [volumes], [image], [build],
    [restart], [ports], [depends_on], [environment], none of which lives on
    a prototype, or an own key of the object read; on a primitive (reached
    only through [svc?.depends_on]) such a read gives [undefined], and [?.]
    gives [undefined] on [null] and [undefined]. *)
Definition get_prop (v : value) (k : string) : value :=
  match assoc k (Object_entries v) with
  | Some x => x
  | None => VUndefined
  end.

(** [k in Object.keys(v)] as an own-property test. *)
Definition has_own (v : value) (k : string) : bool :=
  match assoc k (Object_entries v) with
  | Some _ => true
  | None => false
  end.

(** [arr.includes(x)] / [set.has(x)] on an array or a [Set] of strings
    given by its elements. *)
Definition includes (l : list string) (x : string) : bool :=
  existsb (String.eqb x) l.

(** [String(v)], that is [ToString(v)].  For a plain object
    [OrdinaryToPrimitive] tries [toString] then [valueOf]: without an own
    [toString] property, [Object.prototype.toString] answers
    ["[object Object]"]; an own [toString] (which, coming from the parser,
    is never callable) is skipped, and [valueOf] (own and not callable, or
    inherited and returning the object itself) yields no primitive, so a
    [TypeError] is raised.  For an array, [Array.prototype.toString] is
    [join(",")], where [undefined] and [null] elements give the empty
    string. *)
Fixpoint ToString (v : value) : outcome string :=
  match v with
  | VUndefined => Ret "undefined"
  | VNull => Ret "null"
  | VBool true => Ret "true"
  | VBool false => Ret "false"
  | VNum repr => Ret repr
  | VStr s => Ret s
  | VArr items =>
      let element (x : value) : outcome string :=
        match x with
        | VUndefined | VNull => Ret ""
        | _ => ToString x
        end in
      (fix join (l : list value) : outcome string :=
         match l with
         | [] => Ret ""
         | [x] => element x
         | x :: rest =>
             let* s := element x in
             let* r := join rest in
             Ret (s +:+ "," +:+ r)
         end) items
  | VObj props =>
      if has_own (VObj props) "toString"
      then Throw TypeError_primitive
      else Ret "[object Object]"
  end.

(** ** Strings *)

(** [s.split(sep)[0]]: the part of [s] before the first [sep], all of [s]
    when [sep] does not occur. *)
Fixpoint split_head (sep : ascii) (s : string) : string :=
  match s with
  | EmptyString => EmptyString
  | String c rest =>
      if Ascii.eqb c sep then EmptyString else String c (split_head sep rest)
  end.

(** [s.includes(c)] for a one-character needle. *)
Fixpoint includes_char (c : ascii) (s : string) : bool :=
  match s with
  | EmptyString => false
  | String c' rest => Ascii.eqb c' c || includes_char c rest
  end.

(** [s.startsWith(p)] *)
Definition startsWith (s p : string) : bool := String.prefix p s.

(** [arr.join(", ")] *)
Fixpoint join_comma (l : list string) : string :=
  match l with
  | [] => ""
  | [x] => x
  | x :: rest => x +:+ ", " +:+ join_comma rest
  end.

(** ** Regular expressions *)

(** The two port patterns use only character classes, concatenation,
    [+] and [?], anchored at both ends; [test] then decides membership of
    the whole string in the language of the pattern.  Characters are bytes:
    every character the patterns name is ASCII, and a byte of a non-ASCII
    character belongs to none of the classes. *)
Inductive regex : Type :=
| Void
| Eps
| Class (p : ascii -> bool)
| Seq (r1 r2 : regex)
| Alt (r1 r2 : regex)
| Star (r : regex).

Inductive Matches : regex -> string -> Prop :=
| MEps : Matches Eps ""
| MClass p c : p c = true -> Matches (Class p) (String c "")
| MSeq r1 r2 s1 s2 :
    Matches r1 s1 -> Matches r2 s2 -> Matches (Seq r1 r2) (s1 +:+ s2)
| MAltL r1 r2 s : Matches r1 s -> Matches (Alt r1 r2) s
| MAltR r1 r2 s : Matches r2 s -> Matches (Alt r1 r2) s
| MStarNil r : Matches (Star r) ""
| MStarApp r s1 s2 :
    Matches r s1 -> Matches (Star r) s2 -> Matches (Star r) (s1 +:+ s2).

Fixpoint nullable (r : regex) : bool :=
  match r with
  | Void => false
  | Eps => true
  | Class _ => false
  | Seq r1 r2 => nullable r1 && nullable r2
  | Alt r1 r2 => nullable r1 || nullable r2
  | Star _ => true
  end.

Fixpoint deriv (c : ascii) (r : regex) : regex :=
  match r with
  | Void => Void
  | Eps => Void
  | Class p => if p c then Eps else Void
  | Seq r1 r2 =>
      if nullable r1
      then Alt (Seq (deriv c r1) r2) (deriv c r2)
      else Seq (deriv c r1) r2
  | Alt r1 r2 => Alt (deriv c r1) (deriv c r2)
  | Star r1 => Seq (deriv c r1) (Star r1)
  end.

(** [/^r$/.test(s)] *)
Fixpoint regex_test (r : regex) (s : string) : bool :=
  match s with
  | EmptyString => nullable r
  | String c rest => regex_test (deriv c r) rest
  end.

Definition plus (r : regex) : regex := Seq r (Star r).
Definition opt (r : regex) : regex := Alt Eps r.
Definition chr (c : ascii) : regex := Class (Ascii.eqb c).

Definition between (lo hi : nat) (c : ascii) : bool :=
  Nat.leb lo (nat_of_ascii c) && Nat.leb (nat_of_ascii c) hi.

(** [\d] is [[0-9]]; [\w] is [[A-Za-z0-9_]]. *)
Definition is_digit (c : ascii) : bool := between 48 57 c.

Definition is_word (c : ascii) : bool :=
  between 65 90 c || between 97 122 c || between 48 57 c || Ascii.eqb c "_".

Definition re_d : regex := Class is_digit.
Definition re_w : regex := Class is_word.

(** [[:-]] *)
Definition re_colon_or_dash : regex :=
  Class (fun c => Ascii.eqb c ":" || Ascii.eqb c "-").

(** [\d+([:-]\d+)?] *)
Definition re_portspec : regex :=
  Seq (plus re_d) (opt (Seq re_colon_or_dash (plus re_d))).

(** [(\/\w+)?] *)
Definition re_proto : regex := opt (Seq (chr "/") (plus re_w)).

(** [/^\d+([:-]\d+)?(\/\w+)?$/] *)
Definition port_re_bare : regex := Seq re_portspec re_proto.

(** [/^\d+([:-]\d+)?:\d+([:-]\d+)?(\/\w+)?$/] *)
Definition port_re_mapped : regex :=
  Seq re_portspec (Seq (chr ":") (Seq re_portspec re_proto)).

(** ** Diagnostics *)

Inductive Severity : Type := SevError | SevWarning.

(** [interface ValidationError { severity; message; path? }] *)
Record ValidationError : Type := mkValidationError {
  severity : Severity;
  message : string;
  path : option string
}.

(** The double-quote character, and [s] between double quotes. *)
Definition dq : string := String (ascii_of_nat 34) EmptyString.
Definition quoted (s : string) : string := dq +:+ s +:+ dq.

Definition validRestartPolicies : list string :=
  ["no"; "always"; "on-failure"; "unless-stopped"].

Definition validServiceKeys : list string :=
  ["image"; "build"; "command"; "entrypoint"; "container_name"; "depends_on";
   "environment"; "env_file"; "expose"; "ports"; "volumes"; "networks";
   "restart"; "deploy"; "labels"; "logging"; "healthcheck"; "configs";
   "secrets"; "working_dir"; "user"; "hostname"; "domainname"; "dns";
   "dns_search"; "extra_hosts"; "links"; "external_links"; "stdin_open";
   "tty"; "cap_add"; "cap_drop"; "devices"; "privileged"; "read_only";
   "security_opt"; "tmpfs"; "sysctls"; "ulimits"; "stop_signal";
   "stop_grace_period"; "init"; "platform"; "profiles"; "pull_policy";
   "mem_limit"; "memswap_limit"; "mem_reservation"; "cpus"; "cpu_shares";
   "cpu_quota"; "cpu_period"; "cpuset"; "shm_size"; "pid"; "ipc";
   "extends"; "scale"; "runtime"; "isolation"; "network_mode";
   "group_add"; "cgroup_parent"; "credential_spec"; "oom_score_adj";
   "storage_opt"; "annotations"].

Definition validTopLevelKeys : list string :=
  ["version"; "services"; "networks"; "volumes"; "configs"; "secrets"; "name"].

(** The diagnostics of [validate], one definition per [errors.push]. *)
Module Diag.

Definition root_not_mapping : ValidationError :=
  mkValidationError SevError "Document must be a YAML mapping (object)." None.

Definition unknown_top_level_key (key : string) : ValidationError :=
  mkValidationError SevWarning
    ("Unknown top-level key " +:+ quoted key +:+ ".") (Some key).

Definition obsolete_version : ValidationError :=
  mkValidationError SevWarning
    ("The " +:+ quoted "version" +:+
     " field is obsolete in Docker Compose v2+. It can be safely removed.")
    (Some "version").

Definition missing_services : ValidationError :=
  mkValidationError SevError
    ("Missing required " +:+ quoted "services" +:+ " key.") None.

Definition services_not_mapping : ValidationError :=
  mkValidationError SevError
    (quoted "services" +:+ " must be a mapping of service definitions.") None.

Definition service_not_mapping (name svcPath : string) : ValidationError :=
  mkValidationError SevError
    ("Service " +:+ quoted name +:+ " must be a mapping.") (Some svcPath).

Definition no_image_or_build (name svcPath : string) : ValidationError :=
  mkValidationError SevError
    ("Service " +:+ quoted name +:+ " must have either " +:+ quoted "image"
     +:+ " or " +:+ quoted "build" +:+ ".")
    (Some svcPath).

Definition unknown_service_key (name svcPath key : string) : ValidationError :=
  mkValidationError SevWarning
    ("Unknown key " +:+ quoted key +:+ " in service " +:+ quoted name +:+ ".")
    (Some (svcPath +:+ "." +:+ key)).

Definition invalid_restart (name svcPath restart : string) : ValidationError :=
  mkValidationError SevError
    ("Invalid restart policy " +:+ quoted restart +:+ " in " +:+ quoted name
     +:+ ". Valid: " +:+ join_comma validRestartPolicies +:+ ".")
    (Some (svcPath +:+ ".restart")).

Definition unusual_port (name svcPath pStr : string) : ValidationError :=
  mkValidationError SevWarning
    ("Unusual port format " +:+ quoted pStr +:+ " in " +:+ quoted name
     +:+ ". Expected format: " +:+ quoted "host:container" +:+ " or "
     +:+ quoted "container" +:+ ".")
    (Some (svcPath +:+ ".ports")).

Definition undefined_dependency (name svcPath dep : string) : ValidationError :=
  mkValidationError SevError
    ("Service " +:+ quoted name +:+ " depends on " +:+ quoted dep
     +:+ ", which is not defined.")
    (Some (svcPath +:+ ".depends_on")).

Definition self_dependency (name svcPath : string) : ValidationError :=
  mkValidationError SevError
    ("Service " +:+ quoted name +:+ " depends on itself.")
    (Some (svcPath +:+ ".depends_on")).

Definition bad_environment (name svcPath : string) : ValidationError :=
  mkValidationError SevError
    (quoted "environment" +:+ " in " +:+ quoted name
     +:+ " must be a list or mapping.")
    (Some (svcPath +:+ ".environment")).

Definition undefined_volume (name svcPath vol : string) : ValidationError :=
  mkValidationError SevWarning
    ("Volume " +:+ quoted vol +:+ " used in " +:+ quoted name
     +:+ " is not defined in top-level " +:+ quoted "volumes" +:+ ".")
    (Some (svcPath +:+ ".volumes")).

Definition circular (node dep : string) : ValidationError :=
  mkValidationError SevError
    ("Circular dependency detected involving " +:+ quoted node +:+ " and "
     +:+ quoted dep +:+ ".")
    None.

End Diag.

(** ** The blocks of [validate] *)

(** [typeof v !== 'object' || v === null] *)
Definition not_object_or_null (v : value) : bool :=
  negb (jstype_eqb (typeof v) TObject) || is_null v.

(** Top-level keys (source lines 39-43): one warning for each key outside
    [validTopLevelKeys]. *)
Definition check_top_level_keys (root : value) : list ValidationError :=
  flat_map
    (fun key =>
       if includes validTopLevelKeys key then []
       else [Diag.unknown_top_level_key key])
    (Object_keys root).

(** Version check (lines 46-52): [root.version !== undefined]. *)
Definition check_version (root : value) : list ValidationError :=
  if is_undefined (get_prop root "version") then []
  else [Diag.obsolete_version].

(** Must have image or build (lines 79-81): [!svc.image && !svc.build]. *)
Definition check_image_build (name svcPath : string) (svc : value)
  : list ValidationError :=
  if negb (truthy (get_prop svc "image")) && negb (truthy (get_prop svc "build"))
  then [Diag.no_image_or_build name svcPath]
  else [].

(** Unknown keys of a service (lines 84-88). *)
Definition check_unknown_keys (name svcPath : string) (svc : value)
  : list ValidationError :=
  flat_map
    (fun key =>
       if includes validServiceKeys key then []
       else [Diag.unknown_service_key name svcPath key])
    (Object_keys svc).

(** Restart policy (lines 91-101), on the value [svc.restart]. *)
Definition check_restart (name svcPath : string) (restart_value : value)
  : outcome (list ValidationError) :=
  if negb (is_undefined restart_value) then
    let* restart := ToString restart_value in
    let basePolicy := split_head ":" restart in
    if negb (includes validRestartPolicies basePolicy)
    then Ret [Diag.invalid_restart name svcPath restart]
    else Ret []
  else Ret [].

(** One entry of [svc.ports] (lines 105-117).  The source first computes
    an unused [portStr] ([JSON.stringify] of an object or array, [String] of
    anything else), which neither raises on a parsed value nor is read
    again. *)
Definition check_port (name svcPath : string) (port : value)
  : list ValidationError :=
  match port with
  | VStr pStr | VNum pStr =>
      if negb (regex_test port_re_bare pStr)
         && negb (regex_test port_re_mapped pStr)
      then [Diag.unusual_port name svcPath pStr]
      else []
  | _ => []
  end.

(** Ports (lines 104-118), on the value [svc.ports]. *)
Definition check_ports (name svcPath : string) (ports : value)
  : list ValidationError :=
  match ports with
  | VArr items => flat_map (check_port name svcPath) items
  | _ => []
  end.

(** [items.map(String)] *)
Fixpoint map_String (items : list value) : outcome (list string) :=
  match items with
  | [] => Ret []
  | x :: rest =>
      let* s := ToString x in
      let* ss := map_String rest in
      Ret (s :: ss)
  end.

(** The names a truthy [depends_on] refers to (lines 122-126, and again
    184-188): the stringified elements of a sequence, the keys of a mapping,
    nothing otherwise. *)
Definition dependency_names (depends_on : value) : outcome (list string) :=
  match depends_on with
  | VArr items => map_String items
  | _ =>
      if jstype_eqb (typeof depends_on) TObject && negb (is_null depends_on)
      then Ret (Object_keys depends_on)
      else Ret []
  end.

(** One referenced name (lines 128-141): the undefined-reference check,
    then the self-reference check. *)
Definition check_dep (serviceNames : list string) (name svcPath dep : string)
  : list ValidationError :=
  (if negb (includes serviceNames dep)
   then [Diag.undefined_dependency name svcPath dep] else [])
  ++
  (if String.eqb dep name
   then [Diag.self_dependency name svcPath] else []).

(** [depends_on] references (lines 121-143), on the value
    [svc.depends_on]. *)
Definition check_depends_on (serviceNames : list string) (name svcPath : string)
    (depends_on : value) : outcome (list ValidationError) :=
  if truthy depends_on then
    let* deps := dependency_names depends_on in
    Ret (flat_map (check_dep serviceNames name svcPath) deps)
  else Ret [].

(** Environment (lines 146-154), on the value [svc.environment]. *)
Definition check_environment (name svcPath : string) (environment : value)
  : list ValidationError :=
  if negb (is_undefined environment) && negb (is_null environment) then
    if negb (Array_isArray environment)
       && negb (jstype_eqb (typeof environment) TObject)
    then [Diag.bad_environment name svcPath]
    else []
  else [].

(** One entry of [svc.volumes] (lines 158-170). *)
Definition check_volume (root : value) (name svcPath : string) (vol : value)
  : list ValidationError :=
  match vol with
  | VStr vol =>
      if negb (includes_char ":" vol) && negb (startsWith vol "/")
         && negb (startsWith vol ".")
      then
        let topVolumes := get_prop root "volumes" in
        if truthy topVolumes && jstype_eqb (typeof topVolumes) TObject
           && negb (includes (Object_keys topVolumes) vol)
        then [Diag.undefined_volume name svcPath vol]
        else []
      else []
  | _ => []
  end.

(** Volumes (lines 157-171), on the value [svc.volumes]. *)
Definition check_volumes (root : value) (name svcPath : string) (volumes : value)
  : list ValidationError :=
  match volumes with
  | VArr items => flat_map (check_volume root name svcPath) items
  | _ => []
  end.

(** The body of the loop over [Object.entries(services)] (lines 68-172).
    The diagnostics pushed before a [TypeError] are lost with the call. *)
Definition check_service (root : value) (serviceNames : list string)
    (name : string) (def : value) : outcome (list ValidationError) :=
  let svcPath := "services." +:+ name in
  if not_object_or_null def then
    Ret [Diag.service_not_mapping name svcPath]
  else
    let svc := def in
    let e_image := check_image_build name svcPath svc in
    let e_keys := check_unknown_keys name svcPath svc in
    let* e_restart := check_restart name svcPath (get_prop svc "restart") in
    let e_ports := check_ports name svcPath (get_prop svc "ports") in
    let* e_deps := check_depends_on serviceNames name svcPath (get_prop svc "depends_on") in
    let e_env := check_environment name svcPath (get_prop svc "environment") in
    let e_vols := check_volumes root name svcPath (get_prop svc "volumes") in
    Ret (e_image ++ e_keys ++ e_restart ++ e_ports ++ e_deps ++ e_env ++ e_vols).

(** The loop over [Object.entries(services)] (line 68). *)
Fixpoint check_services (root : value) (serviceNames : list string)
    (entries : list (string * value)) : outcome (list ValidationError) :=
  match entries with
  | [] => Ret []
  | (name, def) :: rest =>
      let* e := check_service root serviceNames name def in
      let* es := check_services root serviceNames rest in
      Ret (e ++ es)
  end.

(** ** Circular-dependency detection *)

(** What [hasCycle] closes over and mutates (lines 175-176 and the
    [errors] of [validate]). *)
Record dfs_state : Type := mkState {
  visited : gset string;
  inStack : gset string;
  errors : list ValidationError
}.

Definition mark (node : string) (st : dfs_state) : dfs_state :=
  mkState ({[node]} ∪ visited st) ({[node]} ∪ inStack st) (errors st).

Definition unstack (node : string) (st : dfs_state) : dfs_state :=
  mkState (visited st) (inStack st ∖ {[node]}) (errors st).

Definition push (e : ValidationError) (st : dfs_state) : dfs_state :=
  mkState (visited st) (inStack st) (errors st ++ [e]).

(** The [for (const dep of deps)] loop of [hasCycle(node)] (lines
    189-198), over a given recursive call [rec].  [true] is the early
    [return true] taken inside the loop (after the push and
    [inStack.delete(node)]); [false] means the loop ran to its end. *)
Fixpoint hasCycle_deps (rec : string -> dfs_state -> outcome (bool * dfs_state))
    (serviceNames : list string) (node : string) (deps : list string)
    (st : dfs_state) : outcome (bool * dfs_state) :=
  match deps with
  | [] => Ret (false, st)
  | dep :: rest =>
      if includes serviceNames dep then
        let* (found, st') := rec dep st in
        if found
        then Ret (true, unstack node (push (Diag.circular node dep) st'))
        else hasCycle_deps rec serviceNames node rest st'
      else hasCycle_deps rec serviceNames node rest st
  end.

(** [hasCycle(node)] (lines 177-202).  The recursion of the source is
    bounded by the number of service names (a node is expanded only while
    unvisited); here each expansion takes one unit of [fuel]. *)
Fixpoint hasCycle (fuel : nat) (services : value) (serviceNames : list string)
    (node : string) (st : dfs_state) : outcome (bool * dfs_state) :=
  if bool_decide (node ∈ inStack st) then Ret (true, st)
  else if bool_decide (node ∈ visited st) then Ret (false, st)
  else
    match fuel with
    | O => OutOfFuel
    | S fuel' =>
        let st1 := mark node st in
        let svc := get_prop services node in
        let depends_on := get_prop svc "depends_on" in
        if truthy depends_on then
          let* deps := dependency_names depends_on in
          let* (found, st2) := hasCycle_deps (hasCycle fuel' services serviceNames)
                             serviceNames node deps st1 in
          if found then Ret (true, st2)
          else Ret (false, unstack node st2)
        else Ret (false, unstack node st1)
    end.

(** [for (const name of serviceNames) hasCycle(name)] (lines 203-205) *)
Fixpoint check_cycles (fuel : nat) (services : value) (serviceNames : list string)
    (todo : list string) (st : dfs_state) : outcome dfs_state :=
  match todo with
  | [] => Ret st
  | name :: rest =>
      let* (_, st') := hasCycle fuel services serviceNames name st in
      check_cycles fuel services serviceNames rest st'
  end.

(** ** [validate] *)

(** [validate(doc)] (lines 28-208).  [serviceNames] is the [Set] of the keys
    of [services]; the keys of an object being distinct, it iterates as the
    list of keys, and [has] is membership in that list.  The search gets as
    much fuel as there are names ([validate_terminates]: it never runs
    out). *)
Definition validate (doc : value) : outcome (list ValidationError) :=
  if negb (jstype_eqb (typeof doc) TObject) || is_null doc || Array_isArray doc
  then Ret [Diag.root_not_mapping]
  else
    let root := doc in
    let errors0 := check_top_level_keys root ++ check_version root in
    let services := get_prop root "services" in
    if negb (truthy services) then
      Ret (errors0 ++ [Diag.missing_services])
    else if not_object_or_null services then
      Ret (errors0 ++ [Diag.services_not_mapping])
    else
      let serviceNames := Object_keys services in
      let* errors1 := check_services root serviceNames (Object_entries services) in
      let* st := check_cycles (length serviceNames) services serviceNames serviceNames
             (mkState ∅ ∅ (errors0 ++ errors1)) in
      Ret (errors st).

(** The diagnostics that make the caller call a document invalid. *)
Definition is_error (e : ValidationError) : bool :=
  match severity e with SevError => true | SevWarning => false end.

(** A circular-dependency diagnostic is recognised by the start of its
    message, the only identifying content a diagnostic has. *)
Definition is_circular (e : ValidationError) : bool :=
  startsWith (message e) "Circular dependency detected".

(** ** The search with a log of expansions *)

(** The same search, recording in a ghost log every node whose body runs
    past the two guards (an expansion: the node is marked and its
    dependencies are walked).  [erase_hasCycle] shows that dropping the
    log gives back [hasCycle]. *)
Fixpoint hasCycle_deps_traced
    (rec : string -> dfs_state -> list string ->
           outcome (bool * dfs_state * list string))
    (serviceNames : list string) (node : string) (deps : list string)
    (st : dfs_state) (log : list string)
  : outcome (bool * dfs_state * list string) :=
  match deps with
  | [] => Ret (false, st, log)
  | dep :: rest =>
      if includes serviceNames dep then
        let* (found, st', log') := rec dep st log in
        if found
        then Ret (true, unstack node (push (Diag.circular node dep) st'), log')
        else hasCycle_deps_traced rec serviceNames node rest st' log'
      else hasCycle_deps_traced rec serviceNames node rest st log
  end.

Fixpoint hasCycle_traced (fuel : nat) (services : value)
    (serviceNames : list string) (node : string) (st : dfs_state)
    (log : list string) : outcome (bool * dfs_state * list string) :=
  if bool_decide (node ∈ inStack st) then Ret (true, st, log)
  else if bool_decide (node ∈ visited st) then Ret (false, st, log)
  else
    match fuel with
    | O => OutOfFuel
    | S fuel' =>
        let st1 := mark node st in
        let log1 := log ++ [node] in
        let svc := get_prop services node in
        let depends_on := get_prop svc "depends_on" in
        if truthy depends_on then
          let* deps := dependency_names depends_on in
          let* (found, st2, log2) :=
            hasCycle_deps_traced (hasCycle_traced fuel' services serviceNames)
              serviceNames node deps st1 log1 in
          if found then Ret (true, st2, log2)
          else Ret (false, unstack node st2, log2)
        else Ret (false, unstack node st1, log1)
    end.

Fixpoint check_cycles_traced (fuel : nat) (services : value)
    (serviceNames : list string) (todo : list string) (st : dfs_state)
    (log : list string) : outcome (dfs_state * list string) :=
  match todo with
  | [] => Ret (st, log)
  | name :: rest =>
      let* (_, st', log') :=
        hasCycle_traced fuel services serviceNames name st log in
      check_cycles_traced fuel services serviceNames rest st' log'
  end.

(** Forgetting the log. *)
Definition erase {A B C : Type} (m : outcome (A * B * C)) : outcome (A * B) :=
  let* (a, b, _) := m in Ret (a, b).

Definition erase_log {A B : Type} (m : outcome (A * B)) : outcome A :=
  let* (a, _) := m in Ret a.

(** ** The search with a log of back edges *)

(** A back edge met by the search: the loop of a node reaches a defined
    service that is on the stack.  [closing] is that edge, and [frames]
    are the edges by which the calls in progress were entered, innermost
    first. *)
Record hit : Type := mkHit {
  closing : string * string;
  frames : list (string * string)
}.

(** The same search once more, with two ghost values: [path], the edges
    by which the calls in progress were entered, and a log of the back
    edges met.  [erase_hasCycle_hits] shows that dropping both gives back
    [hasCycle]. *)
Fixpoint hasCycle_deps_hits
    (rec : string -> list (string * string) -> dfs_state -> list hit ->
           outcome (bool * dfs_state * list hit))
    (serviceNames : list string) (node : string)
    (path : list (string * string)) (deps : list string)
    (st : dfs_state) (log : list hit)
  : outcome (bool * dfs_state * list hit) :=
  match deps with
  | [] => Ret (false, st, log)
  | dep :: rest =>
      if includes serviceNames dep then
        let log0 := if bool_decide (dep ∈ inStack st)
                    then log ++ [mkHit (node, dep) path] else log in
        let* (found, st', log') := rec dep ((node, dep) :: path) st log0 in
        if found
        then Ret (true, unstack node (push (Diag.circular node dep) st'), log')
        else hasCycle_deps_hits rec serviceNames node path rest st' log'
      else hasCycle_deps_hits rec serviceNames node path rest st log
  end.

Fixpoint hasCycle_hits (fuel : nat) (services : value)
    (serviceNames : list string) (node : string)
    (path : list (string * string)) (st : dfs_state) (log : list hit)
  : outcome (bool * dfs_state * list hit) :=
  if bool_decide (node ∈ inStack st) then Ret (true, st, log)
  else if bool_decide (node ∈ visited st) then Ret (false, st, log)
  else
    match fuel with
    | O => OutOfFuel
    | S fuel' =>
        let st1 := mark node st in
        let svc := get_prop services node in
        let depends_on := get_prop svc "depends_on" in
        if truthy depends_on then
          let* deps := dependency_names depends_on in
          let* (found, st2, log2) :=
            hasCycle_deps_hits (hasCycle_hits fuel' services serviceNames)
              serviceNames node path deps st1 log in
          if found then Ret (true, st2, log2)
          else Ret (false, unstack node st2, log2)
        else Ret (false, unstack node st1, log)
    end.

Fixpoint check_cycles_hits (fuel : nat) (services : value)
    (serviceNames : list string) (todo : list string) (st : dfs_state)
    (log : list hit) : outcome (dfs_state * list hit) :=
  match todo with
  | [] => Ret (st, log)
  | name :: rest =>
      let* (_, st', log') :=
        hasCycle_hits fuel services serviceNames name [] st log in
      check_cycles_hits fuel services serviceNames rest st' log'
  end.

(** * Vocabulary of the properties *)

(** ** Values *)

(** Induction over the tree of a value. *)
Section ValueInduction.

Variable P : value -> Prop.
Hypothesis HUndefined : P VUndefined.
Hypothesis HNull : P VNull.
Hypothesis HBool : forall b, P (VBool b).
Hypothesis HNum : forall repr, P (VNum repr).
Hypothesis HStr : forall s, P (VStr s).
Hypothesis HArr : forall items, Forall P items -> P (VArr items).
Hypothesis HObj :
  forall props, Forall (fun kv => P (snd kv)) props -> P (VObj props).

Fixpoint value_tree_ind (v : value) : P v :=
  match v with
  | VUndefined => HUndefined
  | VNull => HNull
  | VBool b => HBool b
  | VNum repr => HNum repr
  | VStr s => HStr s
  | VArr items =>
      HArr items
        ((fix all (l : list value) : Forall P l :=
            match l with
            | [] => List.Forall_nil P
            | x :: rest => List.Forall_cons P x rest (value_tree_ind x) (all rest)
            end) items)
  | VObj props =>
      HObj props
        ((fix all (l : list (string * value))
            : Forall (fun kv => P (snd kv)) l :=
            match l with
            | [] => List.Forall_nil _
            | kv :: rest =>
                List.Forall_cons (fun kv => P (snd kv)) kv rest
                  (value_tree_ind (snd kv)) (all rest)
            end) props)
  end.

End ValueInduction.

(** The element conversion and the [join] of [Array.prototype.toString],
    as [ToString] runs them. *)
Definition ToString_element (x : value) : outcome string :=
  match x with
  | VUndefined | VNull => Ret ""
  | _ => ToString x
  end.

Fixpoint Array_join (l : list value) : outcome string :=
  match l with
  | [] => Ret ""
  | [x] => ToString_element x
  | x :: rest =>
      let* s := ToString_element x in
      let* r := Array_join rest in
      Ret (s +:+ "," +:+ r)
  end.

(** ** The search *)

(** The diagnostic of a reported pair [(node, dep)]. *)
Definition circ (e : string * string) : ValidationError :=
  Diag.circular (fst e) (snd e).

(** What a stretch of the search does to the state: [new] lists the nodes
    it expands, in order, and [edges] the pairs it reports. *)
Record advance (names : gset string) (st : dfs_state) (log : list string)
    (st' : dfs_state) (log' : list string)
    (new : list string) (edges : list (string * string)) : Prop := {
  adv_visited : visited st' = visited st ∪ list_to_set new;
  adv_log : log' = log ++ new;
  adv_errors : errors st' = errors st ++ map circ edges;
  adv_fresh : forall x, x ∈ new -> x ∉ visited st;
  adv_nodup : NoDup new;
  adv_names : forall x, x ∈ new -> x ∈ names
}.

(** Every reported pair starts at a node expanded in the stretch, and no
    two pairs start at the same node. *)
Definition edges_ok (new : list string) (edges : list (string * string)) : Prop :=
  NoDup (map fst edges) /\ forall x, x ∈ map fst edges -> x ∈ new.

(** The search raises only where the dependencies of some node cannot be
    stringified. *)
Definition search_raises (services : value) : Prop :=
  exists node msg,
    dependency_names (get_prop (get_prop services node) "depends_on")
    = Throw msg.

(** What a call [hasCycle(node)] guarantees, and what it needs from the
    fuel: the stack is left as found, the visited set grows by the nodes
    expanded, and each reported pair starts at one of them.  With as much
    fuel as there are unvisited names the call does not run out. *)
Definition hasCycle_post (services : value) (names : gset string)
    (st : dfs_state) (log : list string)
    (r : outcome (bool * dfs_state * list string)) : Prop :=
  match r with
  | Ret (_, st', log') =>
      inStack st' = inStack st /\
      exists new edges,
        advance names st log st' log' new edges /\ edges_ok new edges
  | Throw _ => search_raises services
  | OutOfFuel => False
  end.

(** The same for the loop over the dependencies of [node]: [tail] is the
    pair the loop itself reports when it returns early. *)
Definition hasCycle_deps_post (services : value) (names : gset string)
    (node : string) (st : dfs_state) (log : list string)
    (r : outcome (bool * dfs_state * list string)) : Prop :=
  match r with
  | Ret (found, st', log') =>
      exists new inner tail,
        advance names st log st' log' new (inner ++ tail) /\
        edges_ok new inner /\
        if found
        then (exists dep, tail = [(node, dep)]) /\
             inStack st' = inStack st ∖ {[node]}
        else tail = [] /\ inStack st' = inStack st
  | Throw _ => search_raises services
  | OutOfFuel => False
  end.

(** ** Documents and diagnostics *)

(** The keys of a mapping that are not top-level keys of a Compose file. *)
Definition unknown_top_level_keys (root : value) : list string :=
  List.filter (fun key => negb (includes validTopLevelKeys key))
    (Object_keys root).

(** The service [{image: "nginx", depends_on: deps}]. *)
Definition service (deps : list string) : value :=
  VObj [("image", VStr "nginx"); ("depends_on", VArr (map VStr deps))].






(** The strings in the language of one of the two port patterns. *)
Definition usual_port (s : string) : Prop :=
  Matches port_re_bare s \/ Matches port_re_mapped s.

(** The test the ports check runs on a string. *)
Definition usual_portb (s : string) : bool :=
  regex_test port_re_bare s || regex_test port_re_mapped s.




(** No diagnostic of [ds] is a circular-dependency diagnostic. *)
Definition not_circular (ds : list ValidationError) : Prop :=
  Forall (fun d => is_circular d = false) ds.

(** [{services: {C: {…, depends_on: [A]}, A: {…, depends_on: [B]},
    B: {…, depends_on: [A]}}}] *)
Definition doc_three : value :=
  VObj [("services", VObj [("C", service ["A"]); ("A", service ["B"]);
                           ("B", service ["A"])])].

(** No mapping of the document has a key named [toString]. *)
Fixpoint no_toString_key (v : value) : bool :=
  match v with
  | VArr items => forallb no_toString_key items
  | VObj props =>
      negb (has_own (VObj props) "toString")
      && (fix all (l : list (string * value)) : bool :=
            match l with
            | [] => true
            | (_, x) :: rest => no_toString_key x && all rest
            end) props
  | _ => true
  end.

(** ** The dependency graph *)

(** [services[node]?.depends_on] *)
Definition depends_on_of (services : value) (node : string) : value :=
  get_prop (get_prop services node) "depends_on".

(** The edges the search follows: [node] depends on [dep] when [dep] is
    among the names of the truthy [depends_on] of [node] and is a defined
    service. *)
Definition edge (services : value) (serviceNames : list string)
    (node dep : string) : Prop :=
  truthy (depends_on_of services node) = true /\
  exists deps,
    dependency_names (depends_on_of services node) = Ret deps /\
    dep ∈ deps /\ dep ∈ serviceNames.

(** [node] lies on a cycle of the graph. *)
Definition on_cycle (services : value) (serviceNames : list string)
    (node : string) : Prop :=
  tc (edge services serviceNames) node node.

(** From [node] a cycle can be reached. *)
Definition reaches_cycle (services : value) (serviceNames : list string)
    (node : string) : Prop :=
  exists c, rtc (edge services serviceNames) node c
            /\ on_cycle services serviceNames c.

(** A node fully explored: visited and off the stack. *)
Definition closed (st : dfs_state) (v : string) : Prop :=
  v ∈ visited st /\ v ∉ inStack st.

(** While nothing has been reported, the explored part of the graph is
    closed under the edges and free of cycles. *)
Definition explored_ok (services : value) (serviceNames : list string)
    (st : dfs_state) : Prop :=
  forall v, closed st v ->
    (forall d, edge services serviceNames v d -> closed st d) /\
    ~ on_cycle services serviceNames v.

(** What a call guarantees about the pairs it reports, when every node on
    the stack has a path to the node called. *)
Definition sound_post (services : value) (serviceNames : list string)
    (st : dfs_state) (node : string)
    (r : bool * dfs_state) : Prop :=
  inStack (snd r) = inStack st /\
  (fst r = true -> reaches_cycle services serviceNames node) /\
  exists edges,
    errors (snd r) = errors st ++ map circ edges /\
    forall e, e ∈ edges ->
      edge services serviceNames (fst e) (snd e) /\
      reaches_cycle services serviceNames (snd e).

(** What a call guarantees about the explored part of the graph. *)
Definition complete_post (services : value) (serviceNames : list string)
    (st : dfs_state) (node : string)
    (r : bool * dfs_state) : Prop :=
  inStack (snd r) = inStack st /\
  visited st ⊆ visited (snd r) /\
  (exists more, errors (snd r) = errors st ++ more) /\
  (fst r = false ->
     errors (snd r) = errors st /\
     explored_ok services serviceNames (snd r) /\
     closed (snd r) node) /\
  (fst r = true -> node ∈ inStack st \/ errors (snd r) <> errors st).

(** ** Back edges *)

(** The pairs reported for a back edge: the closing edge, then the edge of
    every call in progress, innermost first. *)
Definition reported (h : hit) : list (string * string) :=
  closing h :: frames h.

(** [path] is a chain of calls ending in the call on [node]: its first
    pair leads into [node], the next one into the source of the first, and
    so on. *)
Fixpoint linked (path : list (string * string)) (node : string) : Prop :=
  match path with
  | [] => True
  | e :: outer => snd e = node /\ linked outer (fst e)
  end.

(** A logged back edge is a real one: the calls in progress form a chain
    of edges of the graph down to the source of the closing edge, the
    closing edge is an edge of the graph, and its target is the node of
    one of the calls in progress. *)
Definition hit_ok (services : value) (serviceNames : list string)
    (h : hit) : Prop :=
  linked (frames h) (fst (closing h)) /\
  (forall e, e ∈ reported h -> edge services serviceNames (fst e) (snd e)) /\
  snd (closing h) ∈ map fst (reported h).

(** The sources of the pairs [edges] are distinct nodes, all of them
    visited between [st] and [st']. *)
Definition fresh_sources (st st' : dfs_state)
    (edges : list (string * string)) : Prop :=
  NoDup (map fst edges) /\
  forall x, x ∈ map fst edges -> x ∈ visited st' /\ x ∉ visited st.

(** What a call [hasCycle(node)] entered along [path] does to the log and
    to the diagnostics.  It answers [true] either at once, because [node]
    is on the stack, or after one back edge was met below it: then the
    closing edge and the edges of the calls below [node] were reported,
    in this order.  It answers [false] without a back edge and without a
    diagnostic. *)
Definition hits_post (services : value) (serviceNames : list string)
    (node : string) (path : list (string * string))
    (st : dfs_state) (log : list hit)
    (r : bool * dfs_state * list hit) : Prop :=
  let '(found, st', log') := r in
  inStack st' = inStack st /\
  visited st ⊆ visited st' /\
  (node ∈ inStack st -> found = true /\ st' = st /\ log' = log) /\
  (node ∉ inStack st ->
   if found then
     exists c inner,
       log' = log ++ [mkHit c (inner ++ path)] /\
       errors st' = errors st ++ map circ (c :: inner) /\
       hit_ok services serviceNames (mkHit c (inner ++ path)) /\
       fresh_sources st st' (c :: inner)
   else log' = log /\ errors st' = errors st).

(** The same for the loop over the dependencies of [node], which is
    visited when the loop starts and is the source of the last pair
    reported. *)
Definition hits_deps_post (services : value) (serviceNames : list string)
    (node : string) (path : list (string * string))
    (st : dfs_state) (log : list hit)
    (r : bool * dfs_state * list hit) : Prop :=
  let '(found, st', log') := r in
  visited st ⊆ visited st' /\
  if found then
    inStack st' = inStack st ∖ {[node]} /\
    exists c inner,
      log' = log ++ [mkHit c (inner ++ path)] /\
      errors st' = errors st ++ map circ (c :: inner) /\
      hit_ok services serviceNames (mkHit c (inner ++ path)) /\
      NoDup (map fst (c :: inner)) /\
      forall x, x ∈ map fst (c :: inner) ->
                x ∈ visited st' /\ (x = node \/ x ∉ visited st)
  else inStack st' = inStack st /\ log' = log /\ errors st' = errors st.

(** The diagnostics reported for a list of back edges. *)
Definition hit_diagnostics (hits : list hit) : list ValidationError :=
  flat_map (fun h => map circ (reported h)) hits.

(** ** Documents the caller calls valid *)

(** No diagnostic of [ds] has severity error. *)
Definition no_errors (ds : list ValidationError) : Prop :=
  Forall (fun d => is_error d = false) ds.

(** What the per-service checks require of a service for them to push no
    error: a non-null [typeof 'object'] definition with a truthy [image] or
    [build]; a [restart] that is absent or whose part before the first [:]
    is a policy; a [depends_on] that, if truthy, names only defined
    services other than the service itself; an [environment] that is
    absent, [null], or of [typeof 'object']. *)
Definition service_ok (serviceNames : list string) (name : string)
    (def : value) : Prop :=
  not_object_or_null def = false /\
  (truthy (get_prop def "image") = true
   \/ truthy (get_prop def "build") = true) /\
  (get_prop def "restart" = VUndefined \/
   exists restart,
     ToString (get_prop def "restart") = Ret restart /\
     In (split_head ":" restart) validRestartPolicies) /\
  (truthy (get_prop def "depends_on") = true ->
   exists deps,
     dependency_names (get_prop def "depends_on") = Ret deps /\
     forall dep, dep ∈ deps -> dep ∈ serviceNames /\ dep <> name) /\
  (get_prop def "environment" = VUndefined \/
   get_prop def "environment" = VNull \/
   typeof (get_prop def "environment") = TObject).

(** A document against which [validate] finds no error. *)
Definition compose_ok (doc : value) : Prop :=
  let services := get_prop doc "services" in
  let serviceNames := Object_keys services in
  (exists props, doc = VObj props) /\
  truthy services = true /\
  typeof services = TObject /\
  (forall name def,
      (name, def) ∈ Object_entries services ->
      service_ok serviceNames name def) /\
  ~ exists node, on_cycle services serviceNames node.

(** ** Diagnostics and their paths *)

(** A diagnostic that says where in the document it applies. *)
Definition has_path (d : ValidationError) : bool :=
  match path d with
  | Some _ => true
  | None => false
  end.

Definition all_located (ds : list ValidationError) : Prop :=
  Forall (fun d => has_path d = true) ds.

(** The diagnostics [validate] pushes without a path. *)
Definition pathless (d : ValidationError) : Prop :=
  d = Diag.root_not_mapping \/ d = Diag.missing_services \/
  d = Diag.services_not_mapping \/
  exists node dep, d = Diag.circular node dep.

(** [{version: "3.8", services: {web: {image: "nginx"}}}] *)
Definition doc_versioned : value :=
  VObj [("version", VStr "3.8");
        ("services", VObj [("web", VObj [("image", VStr "nginx")])])].

(** ** The shape of a port string *)

(** Every character of [s] satisfies [p]. *)
Fixpoint all_chars (p : ascii -> bool) (s : string) : bool :=
  match s with
  | EmptyString => true
  | String c rest => p c && all_chars p rest
  end.

(** A non-empty run of decimal digits; of word characters. *)
Definition digits (s : string) : Prop :=
  s <> "" /\ all_chars is_digit s = true.

Definition word (s : string) : Prop :=
  s <> "" /\ all_chars is_word s = true.

(** One number, or two numbers joined by [:] or [-]. *)
Definition port_spec (s : string) : Prop :=
  digits s \/
  exists a sep b,
    s = a +:+ String sep b /\ digits a /\ digits b /\
    (sep = ":"%char \/ sep = "-"%char).

(** Nothing, or [/] and a word. *)
Definition port_proto (s : string) : Prop :=
  s = "" \/ exists w, s = String "/" w /\ word w.

(** The strings the ports check accepts: a port spec, or two port specs
    joined by [:], with an optional protocol. *)
Definition port_shape (s : string) : Prop :=
  exists body proto,
    s = body +:+ proto /\ port_proto proto /\
    (port_spec body \/
     exists host container,
       body = host +:+ String ":" container /\
       port_spec host /\ port_spec container).


(** * Properties *)

(** ** Strings and regular expressions *)

Lemma append_nil_r (s : string) : s +:+ "" = s.
Proof. induction s as [|c s IH]; simpl; [reflexivity | now rewrite IH]. Qed.

Lemma append_assoc (s1 s2 s3 : string) :
  (s1 +:+ s2) +:+ s3 = s1 +:+ (s2 +:+ s3).
Proof. induction s1 as [|c s1 IH]; simpl; [reflexivity | now rewrite IH]. Qed.

Lemma append_eq_nil (s1 s2 : string) :
  s1 +:+ s2 = "" -> s1 = "" /\ s2 = "".
Proof. destruct s1; simpl; [auto | discriminate]. Qed.

Lemma Matches_Void_inv (s : string) : Matches Void s -> False.
Proof. inversion 1. Qed.

Lemma Matches_Eps_inv (s : string) : Matches Eps s -> s = "".
Proof. now inversion 1. Qed.

Lemma Matches_Class_inv (p : ascii -> bool) (s : string) :
  Matches (Class p) s -> exists c, s = String c "" /\ p c = true.
Proof. inversion 1; subst; eauto. Qed.

Lemma Matches_Seq_inv (r1 r2 : regex) (s : string) :
  Matches (Seq r1 r2) s ->
  exists s1 s2, s = s1 +:+ s2 /\ Matches r1 s1 /\ Matches r2 s2.
Proof. inversion 1; subst; eauto. Qed.

Lemma Matches_Alt_inv (r1 r2 : regex) (s : string) :
  Matches (Alt r1 r2) s -> Matches r1 s \/ Matches r2 s.
Proof. inversion 1; subst; auto. Qed.

Lemma nullable_Matches (r : regex) : nullable r = true <-> Matches r "".
Proof.
  induction r as [| |p|r1 IH1 r2 IH2|r1 IH1 r2 IH2|r IH]; simpl.
  - split; [discriminate | intros H; now apply Matches_Void_inv in H].
  - split; [constructor | reflexivity].
  - split; [discriminate|].
    intros H. apply Matches_Class_inv in H as (c & E & _). discriminate.
  - rewrite andb_true_iff, IH1, IH2. split.
    + intros [H1 H2]. exact (MSeq _ _ "" "" H1 H2).
    + intros H. apply Matches_Seq_inv in H as (s1 & s2 & E & H1 & H2).
      symmetry in E. apply append_eq_nil in E as [-> ->]. auto.
  - rewrite orb_true_iff, IH1, IH2. split.
    + intros [H|H]; [now apply MAltL | now apply MAltR].
    + apply Matches_Alt_inv.
  - split; [constructor | reflexivity].
Qed.

(** A match of [Star r] on a non-empty string starts with a non-empty
    match of [r]. *)
Lemma Matches_Star_cons (r : regex) (c : ascii) (s : string) :
  Matches (Star r) (String c s) ->
  exists s1 s2, s = s1 +:+ s2 /\ Matches r (String c s1) /\ Matches (Star r) s2.
Proof.
  intros H. remember (Star r) as r' eqn:Er. remember (String c s) as w eqn:Ew.
  revert s Ew. induction H as [| | | | | |r0 s1 s2 H1 _ H2 IH2];
    intros t Ew; try discriminate.
  injection Er as ->. destruct s1 as [|c1 s1]; simpl in Ew.
  - now apply IH2.
  - injection Ew as -> <-. now exists s1, s2.
Qed.

Lemma deriv_Seq_intro (c : ascii) (r1 r2 : regex) (s : string) :
  (forall s, Matches (deriv c r1) s -> Matches r1 (String c s)) ->
  Matches (Seq (deriv c r1) r2) s -> Matches (Seq r1 r2) (String c s).
Proof.
  intros IH H. apply Matches_Seq_inv in H as (s1 & s2 & -> & H1 & H2).
  exact (MSeq _ _ (String c s1) s2 (IH _ H1) H2).
Qed.

Lemma deriv_Seq_elim (c : ascii) (r1 r2 : regex) (s : string) :
  (forall s, Matches r1 (String c s) -> Matches (deriv c r1) s) ->
  Matches (Seq r1 r2) (String c s) ->
  Matches (Seq (deriv c r1) r2) s \/ (Matches r1 "" /\ Matches r2 (String c s)).
Proof.
  intros IH H. apply Matches_Seq_inv in H as (s1 & s2 & E & H1 & H2).
  destruct s1 as [|c1 s1]; simpl in E.
  - right. subst s2. auto.
  - injection E as <- ->. left. apply MSeq; [now apply IH | assumption].
Qed.

Lemma deriv_Matches (c : ascii) (r : regex) (s : string) :
  Matches (deriv c r) s <-> Matches r (String c s).
Proof.
  revert s. induction r as [| |p|r1 IH1 r2 IH2|r1 IH1 r2 IH2|r IH];
    intros s; simpl.
  - split; intros H; now apply Matches_Void_inv in H.
  - split; intros H.
    + now apply Matches_Void_inv in H.
    + apply Matches_Eps_inv in H. discriminate.
  - destruct (p c) eqn:Hp; split; intros H.
    + apply Matches_Eps_inv in H as ->. now constructor.
    + apply Matches_Class_inv in H as (c' & E & _). injection E as _ ->.
      constructor.
    + now apply Matches_Void_inv in H.
    + apply Matches_Class_inv in H as (c' & E & Hp'). injection E as -> _.
      congruence.
  - pose proof (fun s => proj1 (IH1 s)) as I1.
    pose proof (fun s => proj2 (IH1 s)) as E1.
    destruct (nullable r1) eqn:Hn; split; intros H.
    + apply Matches_Alt_inv in H as [H|H].
      * now apply deriv_Seq_intro.
      * apply nullable_Matches in Hn. apply IH2 in H.
        exact (MSeq _ _ "" (String c s) Hn H).
    + apply (deriv_Seq_elim _ _ _ _ E1) in H as [H|[_ H]].
      * now apply MAltL.
      * apply MAltR. now apply IH2.
    + now apply deriv_Seq_intro.
    + apply (deriv_Seq_elim _ _ _ _ E1) in H as [H|[H _]].
      * assumption.
      * apply nullable_Matches in H. congruence.
  - split; intros H; apply Matches_Alt_inv in H as [H|H];
      solve [ apply MAltL; now apply IH1 | apply MAltR; now apply IH2 ].
  - split; intros H.
    + apply Matches_Seq_inv in H as (s1 & s2 & -> & H1 & H2).
      apply IH in H1. exact (MStarApp _ (String c s1) s2 H1 H2).
    + apply Matches_Star_cons in H as (s1 & s2 & -> & H1 & H2).
      apply MSeq; [now apply IH | assumption].
Qed.

(** [regex_test] decides the language of the pattern. *)
Lemma regex_test_Matches (r : regex) (s : string) :
  regex_test r s = true <-> Matches r s.
Proof.
  revert r. induction s as [|c s IH]; intros r; simpl.
  - apply nullable_Matches.
  - rewrite IH. apply deriv_Matches.
Qed.

Lemma split_head_spec (sep : ascii) (s : string) :
  exists rest,
    s = split_head sep s +:+ rest /\
    includes_char sep (split_head sep s) = false /\
    (rest = "" \/ exists r, rest = String sep r).
Proof.
  induction s as [|c s (rest & E & Hn & Hr)]; simpl.
  - exists "". auto.
  - destruct (Ascii.eqb c sep) eqn:Hc.
    + apply Ascii.eqb_eq in Hc as ->. exists (String sep s). simpl. eauto.
    + exists rest. simpl. rewrite Hc, Hn. split; [now rewrite <- E | auto].
Qed.


(** ** Values and their conversion to strings *)

Lemma ToString_VArr (items : list value) :
  ToString (VArr items) = Array_join items.
Proof.
  simpl. induction items as [|x rest IH]; [reflexivity|].
  destruct rest as [|y rest]; [reflexivity|].
  change (Array_join (x :: y :: rest))
    with (let* s := ToString_element x in
          let* r := Array_join (y :: rest) in
          Ret (s +:+ "," +:+ r)).
  rewrite <- IH. reflexivity.
Qed.

(** No conversion consumes fuel. *)
Lemma bind_fuel {A B : Type} (m : outcome A) (k : A -> outcome B) :
  m <> OutOfFuel -> (forall a, k a <> OutOfFuel) -> bind m k <> OutOfFuel.
Proof. intros Hm Hk. destruct m; simpl; [apply Hk | discriminate | congruence]. Qed.

Lemma ToString_fuel (v : value) : ToString v <> OutOfFuel.
Proof.
  induction v as [| |b|repr|s|items IH|props IH] using value_tree_ind;
    try discriminate.
  - now destruct b.
  - rewrite ToString_VArr.
    assert (He : forall x, x ∈ items -> ToString_element x <> OutOfFuel).
    { intros x Hx. rewrite Forall_forall in IH. specialize (IH x Hx).
      destruct x; simpl; solve [discriminate | exact IH]. }
    clear IH. induction items as [|x rest IHl]; [discriminate|].
    assert (Hx : ToString_element x <> OutOfFuel) by (apply He; left).
    destruct rest as [|y rest]; [exact Hx|].
    change (Array_join (x :: y :: rest))
      with (let* s := ToString_element x in
            let* r := Array_join (y :: rest) in
            Ret (s +:+ "," +:+ r)).
    apply bind_fuel; [exact Hx|]. intros s.
    apply bind_fuel; [|discriminate].
    apply IHl. intros z Hz. apply He. now right.
  - simpl. destruct (has_own _ _); discriminate.
Qed.

Lemma map_String_fuel (items : list value) : map_String items <> OutOfFuel.
Proof.
  induction items as [|x rest IH]; simpl; [discriminate|].
  apply bind_fuel; [apply ToString_fuel|]. intros s.
  apply bind_fuel; [exact IH | discriminate].
Qed.

Lemma dependency_names_fuel (v : value) : dependency_names v <> OutOfFuel.
Proof.
  destruct v; simpl; try discriminate. apply map_String_fuel.
Qed.

(** ** The search: erasure of the log *)

Lemma erase_hasCycle_deps rec_t rec serviceNames node deps st log :
  (forall dep st log, erase (rec_t dep st log) = rec dep st) ->
  erase (hasCycle_deps_traced rec_t serviceNames node deps st log)
  = hasCycle_deps rec serviceNames node deps st.
Proof.
  intros Hrec. revert st log.
  induction deps as [|dep rest IH]; intros st log; simpl; [reflexivity|].
  destruct (includes serviceNames dep); [|apply IH].
  rewrite <- (Hrec dep st log).
  destruct (rec_t dep st log) as [[[found st'] log']| |]; simpl;
    [|reflexivity|reflexivity].
  destruct found; [reflexivity | apply IH].
Qed.

Lemma erase_hasCycle fuel services serviceNames node st log :
  erase (hasCycle_traced fuel services serviceNames node st log)
  = hasCycle fuel services serviceNames node st.
Proof.
  revert node st log. induction fuel as [|fuel IH]; intros node st log; simpl.
  - repeat case_bool_decide; reflexivity.
  - repeat case_bool_decide; try reflexivity.
    destruct (truthy _); [|reflexivity].
    destruct (dependency_names _) as [deps| |]; simpl; try reflexivity.
    rewrite <- (erase_hasCycle_deps _ (hasCycle fuel services serviceNames)
                  serviceNames node deps (mark node st) (log ++ [node]) IH).
    destruct (hasCycle_deps_traced _ _ _ _ _ _) as [[[found st2] log2]| |];
      simpl; try reflexivity.
    destruct found; reflexivity.
Qed.

Lemma erase_check_cycles fuel services serviceNames todo st log :
  erase_log (check_cycles_traced fuel services serviceNames todo st log)
  = check_cycles fuel services serviceNames todo st.
Proof.
  revert st log. induction todo as [|name rest IH]; intros st log; simpl;
    [reflexivity|].
  rewrite <- (erase_hasCycle fuel services serviceNames name st log).
  destruct (hasCycle_traced _ _ _ _ _ _) as [[[found st'] log']| |]; simpl;
    try reflexivity.
  apply IH.
Qed.

(** ** The search: invariants *)

Lemma includes_elem_of (l : list string) (x : string) :
  includes l x = true <-> x ∈ l.
Proof.
  unfold includes. rewrite existsb_exists, list_elem_of_In. split.
  - intros (y & Hy & E). apply String.eqb_eq in E. now subst.
  - intros H. exists x. split; [assumption | apply String.eqb_refl].
Qed.

Lemma includes_false (l : list string) (x : string) :
  includes l x = false <-> x ∉ l.
Proof.
  rewrite <- includes_elem_of. destruct (includes l x); split; congruence.
Qed.

Lemma advance_refl names st log : advance names st log st log [] [].
Proof.
  split; simpl; try set_solver.
  - now rewrite app_nil_r.
  - now rewrite app_nil_r.
  - constructor.
Qed.

Lemma advance_trans names st log st1 log1 st2 log2 new1 e1 new2 e2 :
  advance names st log st1 log1 new1 e1 ->
  advance names st1 log1 st2 log2 new2 e2 ->
  advance names st log st2 log2 (new1 ++ new2) (e1 ++ e2).
Proof.
  intros [V1 L1 E1 F1 N1 M1] [V2 L2 E2 F2 N2 M2]. split.
  - rewrite V2, V1, list_to_set_app_L. set_solver.
  - rewrite L2, L1. now rewrite app_assoc.
  - rewrite E2, E1, map_app. now rewrite app_assoc.
  - intros x [Hx|Hx]%elem_of_app; [now apply F1|].
    apply F2 in Hx. rewrite V1 in Hx. set_solver.
  - apply NoDup_app. repeat split; [assumption| |assumption].
    intros x Hx Hx2. apply F2 in Hx2. rewrite V1 in Hx2.
    apply Hx2. apply elem_of_union_r. now apply elem_of_list_to_set.
  - intros x [Hx|Hx]%elem_of_app; auto.
Qed.

Lemma edges_ok_nil new : edges_ok new [].
Proof. split; simpl; [constructor | set_solver]. Qed.

Lemma edges_ok_app new1 new2 e1 e2 :
  edges_ok new1 e1 -> edges_ok new2 e2 ->
  (forall x, x ∈ new1 -> x ∉ new2) ->
  edges_ok (new1 ++ new2) (e1 ++ e2).
Proof.
  intros [N1 I1] [N2 I2] D. split; rewrite map_app.
  - apply NoDup_app. repeat split; [assumption| |assumption].
    intros x Hx Hx2. exact (D x (I1 x Hx) (I2 x Hx2)).
  - intros x [Hx|Hx]%elem_of_app; apply elem_of_app; auto.
Qed.

Lemma advance_size names st log st' log' new edges fuel :
  advance names st log st' log' new edges ->
  size (names ∖ visited st) <= fuel ->
  size (names ∖ visited st') <= fuel.
Proof.
  intros [V _ _ _ _ _] H. etransitivity; [|exact H].
  apply subseteq_size. rewrite V. set_solver.
Qed.

Lemma mark_size names node st fuel :
  node ∈ names -> node ∉ visited st ->
  size (names ∖ visited st) <= S fuel ->
  size (names ∖ visited (mark node st)) <= fuel.
Proof.
  intros Hn Hv H. simpl.
  assert (size (names ∖ ({[node]} ∪ visited st)) < size (names ∖ visited st));
    [|lia].
  apply subset_size. set_solver.
Qed.

Lemma size_list_to_set_le (l : list string) :
  size (list_to_set l : gset string) <= length l.
Proof.
  induction l as [|x l IH].
  - rewrite list_to_set_nil, size_empty. simpl. lia.
  - rewrite list_to_set_cons, size_union_alt, size_singleton.
    assert (size (list_to_set l ∖ {[x]} : gset string)
            <= size (list_to_set l : gset string))
      by (apply subseteq_size; set_solver).
    simpl. lia.
Qed.

Section Search.

Variable services : value.
Variable serviceNames : list string.

Let names : gset string := list_to_set serviceNames.

Lemma hasCycle_deps_traced_post rec fuel node deps st log :
  (forall dep st log,
      dep ∈ names -> size (names ∖ visited st) <= fuel ->
      hasCycle_post services names st log (rec dep st log)) ->
  size (names ∖ visited st) <= fuel ->
  hasCycle_deps_post services names node st log
    (hasCycle_deps_traced rec serviceNames node deps st log).
Proof.
  intros Hrec. revert st log.
  induction deps as [|dep rest IH]; intros st log Hsize; simpl.
  - exists [], [], []. split; [apply advance_refl|].
    split; [apply edges_ok_nil | auto].
  - destruct (includes serviceNames dep) eqn:Hin; [|now apply IH].
    apply includes_elem_of in Hin.
    assert (Hdep : dep ∈ names) by now apply elem_of_list_to_set.
    specialize (Hrec dep st log Hdep Hsize) as Hcall.
    destruct (rec dep st log) as [[[found st1] log1]| |]; simpl in *;
      [|exact Hcall|exact Hcall].
    destruct Hcall as (Hstack & new1 & e1 & A1 & O1).
    destruct found.
    + exists new1, e1, [(node, dep)]. split; [|split; [assumption|]].
      * destruct A1 as [V L E F N M]. split; simpl; try assumption.
        rewrite E, map_app. now rewrite app_assoc.
      * split; [now exists dep|]. simpl. now rewrite Hstack.
    + specialize (IH st1 log1 (advance_size _ _ _ _ _ _ _ _ A1 Hsize)).
      destruct (hasCycle_deps_traced rec serviceNames node rest st1 log1)
        as [[[found st2] log2]| |]; simpl in *; [|exact IH|exact IH].
      destruct IH as (new2 & inner2 & tail2 & A2 & O2 & Hfound).
      exists (new1 ++ new2), (e1 ++ inner2), tail2.
      split; [|split].
      * rewrite <- app_assoc. exact (advance_trans _ _ _ _ _ _ _ _ _ _ _ A1 A2).
      * apply edges_ok_app; [assumption..|].
        intros x Hx Hx2. apply (adv_fresh _ _ _ _ _ _ _ A2) in Hx2.
        rewrite (adv_visited _ _ _ _ _ _ _ A1) in Hx2.
        apply Hx2, elem_of_union_r. now apply elem_of_list_to_set.
      * rewrite Hstack in Hfound. exact Hfound.
Qed.

Lemma advance_mark node st log :
  node ∈ names -> node ∉ visited st ->
  advance names st log (mark node st) (log ++ [node]) [node] [].
Proof.
  intros Hn Hv. split; simpl.
  - set_solver.
  - reflexivity.
  - now rewrite app_nil_r.
  - intros x Hx. apply list_elem_of_singleton in Hx. now subst.
  - apply NoDup_singleton.
  - intros x Hx. apply list_elem_of_singleton in Hx. now subst.
Qed.

Lemma advance_unstack node st log st' log' new edges :
  advance names st log st' log' new edges ->
  advance names st log (unstack node st') log' new edges.
Proof. intros [V L E F N M]. split; assumption. Qed.

Lemma unstack_mark_inStack node st :
  node ∉ inStack st -> inStack (mark node st) ∖ {[node]} = inStack st.
Proof. simpl. set_solver. Qed.

Lemma hasCycle_traced_post fuel node st log :
  node ∈ names ->
  size (names ∖ visited st) <= fuel ->
  hasCycle_post services names st log
    (hasCycle_traced fuel services serviceNames node st log).
Proof.
  revert node st log.
  induction fuel as [|fuel IH]; intros node st log Hn Hsize; simpl.
  - case_bool_decide as Hs; [|case_bool_decide as Hv].
    + split; [reflexivity|]. exists [], []. split;
        [apply advance_refl | apply edges_ok_nil].
    + split; [reflexivity|]. exists [], []. split;
        [apply advance_refl | apply edges_ok_nil].
    + assert (size (names ∖ visited st) = 0) as Hz by lia.
      apply size_empty_inv in Hz. set_solver.
  - case_bool_decide as Hs; [|case_bool_decide as Hv].
    + split; [reflexivity|]. exists [], []. split;
        [apply advance_refl | apply edges_ok_nil].
    + split; [reflexivity|]. exists [], []. split;
        [apply advance_refl | apply edges_ok_nil].
    + pose proof (advance_mark node st log Hn Hv) as Am.
      pose proof (unstack_mark_inStack node st Hs) as Hst.
      destruct (truthy _).
      2:{ simpl. split; [exact Hst|]. exists [node], []. split;
            [now apply advance_unstack | apply edges_ok_nil]. }
      destruct (dependency_names _) as [deps|msg|] eqn:Hdeps; simpl;
        [|now exists node, msg|now apply dependency_names_fuel in Hdeps].
      pose proof (hasCycle_deps_traced_post
                    (hasCycle_traced fuel services serviceNames) fuel node
                    deps (mark node st) (log ++ [node])
                    (fun dep st log => IH dep st log)
                    (mark_size _ _ _ _ Hn Hv Hsize)) as Hloop.
      destruct (hasCycle_deps_traced _ _ _ _ _ _)
        as [[[found st2] log2]| |]; simpl in *; [|exact Hloop|exact Hloop].
      destruct Hloop as (new & inner & tail & A & [Nd Sub] & Hfound).
      pose proof (advance_trans _ _ _ _ _ _ _ _ _ _ _ Am A) as At.
      simpl in At.
      assert (Hfresh : node ∉ map fst inner).
      { intros Hx. apply Sub in Hx.
        apply (adv_fresh _ _ _ _ _ _ _ A) in Hx. simpl in Hx. set_solver. }
      destruct found.
      * destruct Hfound as [[dep ->] Hstack]. split; [congruence|].
        exists (node :: new), (inner ++ [(node, dep)]).
        split; [exact At|]. split.
        -- rewrite map_app. simpl. apply NoDup_app.
           repeat split; [assumption| |apply NoDup_singleton].
           intros x Hx ->%list_elem_of_singleton. contradiction.
        -- rewrite map_app. simpl.
           intros x [Hx| ->%list_elem_of_singleton]%elem_of_app.
           ++ right. now apply Sub.
           ++ left.
      * destruct Hfound as [-> Hstack]. rewrite app_nil_r in At.
        split; [simpl; congruence|].
        exists (node :: new), inner.
        split; [now apply advance_unstack|]. split; [assumption|].
        intros x Hx. right. now apply Sub.
Qed.

Lemma check_cycles_traced_post fuel todo st log :
  (forall x, x ∈ todo -> x ∈ names) ->
  size (names ∖ visited st) <= fuel ->
  match check_cycles_traced fuel services serviceNames todo st log with
  | Ret (st', log') =>
      inStack st' = inStack st /\
      exists new edges,
        advance names st log st' log' new edges /\ edges_ok new edges
  | Throw _ => search_raises services
  | OutOfFuel => False
  end.
Proof.
  revert st log. induction todo as [|name rest IH]; intros st log Hin Hsize;
    simpl.
  - split; [reflexivity|]. exists [], []. split;
      [apply advance_refl | apply edges_ok_nil].
  - pose proof (hasCycle_traced_post fuel name st log
                  (Hin name ltac:(left)) Hsize) as Hcall.
    destruct (hasCycle_traced _ _ _ _ _ _) as [[[found st1] log1]| |];
      simpl in *; [|exact Hcall|exact Hcall].
    destruct Hcall as (Hstack & new1 & e1 & A1 & O1).
    specialize (IH st1 log1 (fun x Hx => Hin x ltac:(now right))
                  (advance_size _ _ _ _ _ _ _ _ A1 Hsize)).
    destruct (check_cycles_traced _ _ _ _ _ _) as [[st2 log2]| |];
      [|exact IH|exact IH].
    destruct IH as (Hstack2 & new2 & e2 & A2 & O2).
    split; [congruence|]. exists (new1 ++ new2), (e1 ++ e2). split.
    + exact (advance_trans _ _ _ _ _ _ _ _ _ _ _ A1 A2).
    + apply edges_ok_app; [assumption..|].
      intros x Hx Hx2. apply (adv_fresh _ _ _ _ _ _ _ A2) in Hx2.
      rewrite (adv_visited _ _ _ _ _ _ _ A1) in Hx2.
      apply Hx2, elem_of_union_r. now apply elem_of_list_to_set.
Qed.

Lemma size_names : size names <= length serviceNames.
Proof. apply size_list_to_set_le. Qed.

(** The whole cycle check, started as [validate] starts it: it does not
    run out of fuel; every node is expanded at most once; the diagnostics
    it appends are circular-dependency diagnostics, at most one starting
    at each expanded node. *)
Lemma check_cycles_from_empty errors0 :
  match check_cycles_traced (length serviceNames) services serviceNames
          serviceNames (mkState ∅ ∅ errors0) [] with
  | Ret (st', log') =>
      inStack st' = ∅ /\
      visited st' = list_to_set log' /\
      NoDup log' /\
      (forall x, x ∈ log' -> x ∈ serviceNames) /\
      exists edges,
        errors st' = errors0 ++ map circ edges /\ edges_ok log' edges
  | Throw _ => search_raises services
  | OutOfFuel => False
  end.
Proof.
  assert (Hin : forall x, x ∈ serviceNames -> x ∈ names)
    by (intros x Hx; now apply elem_of_list_to_set).
  assert (Hsize : size (names ∖ visited (mkState ∅ ∅ errors0))
                  <= length serviceNames).
  { simpl. etransitivity; [|apply size_names].
    apply subseteq_size. set_solver. }
  pose proof (check_cycles_traced_post (length serviceNames) serviceNames
                (mkState ∅ ∅ errors0) [] Hin Hsize) as H.
  destruct (check_cycles_traced _ _ _ _ _ _) as [[st' log']| |];
    [|exact H|exact H].
  destruct H as (Hstack & new & edges & [V L E F N M] & O).
  simpl in L, V, Hstack, E. subst log'. repeat split; try assumption.
  - rewrite V. set_solver.
  - intros x Hx. apply M in Hx. now apply elem_of_list_to_set in Hx.
  - now exists edges.
Qed.

End Search.

(** ** The root and the [services] key *)

(** A root that is not a mapping: one error, nothing else. *)
Lemma validate_non_mapping_root (doc : value) :
  (forall props, doc <> VObj props) ->
  validate doc = Ret [Diag.root_not_mapping].
Proof.
  intros H. destruct doc; try reflexivity. now destruct (H props).
Qed.

(** C3, as amended: for [null] and for [undefined], [validate] does not
    raise; it returns exactly one diagnostic, the error of a root that is
    not a mapping ("Document must be a YAML mapping (object)."), which has
    no path.  This is the diagnostic of every non-mapping root, not the
    missing-[services] error of a mapping. *)
Theorem validate_null_undefined :
  validate VNull = Ret [Diag.root_not_mapping] /\
  validate VUndefined = Ret [Diag.root_not_mapping] /\
  severity Diag.root_not_mapping = SevError /\
  message Diag.root_not_mapping = "Document must be a YAML mapping (object)." /\
  path Diag.root_not_mapping = None /\
  Diag.root_not_mapping <> Diag.missing_services.
Proof. repeat split. discriminate. Qed.

(** C3, as stated, fails: a mapping without [services] yields the
    missing-[services] error, and neither [null] nor [undefined] yields
    that result. *)
Lemma validate_null_differs_from_missing_services :
  validate (VObj []) = Ret [Diag.missing_services] /\
  validate VNull <> validate (VObj []) /\
  validate VUndefined <> validate (VObj []).
Proof. repeat split; discriminate. Qed.

Lemma check_top_level_keys_unknown (root : value) :
  check_top_level_keys root
  = map Diag.unknown_top_level_key (unknown_top_level_keys root).
Proof.
  unfold check_top_level_keys, unknown_top_level_keys.
  induction (Object_keys root) as [|key keys IH]; [reflexivity|].
  cbn [flat_map List.filter]. rewrite IH.
  now destruct (includes validTopLevelKeys key).
Qed.

Lemma get_prop_absent (v : value) (k : string) :
  has_own v k = false -> get_prop v k = VUndefined.
Proof. unfold has_own, get_prop. now destruct (assoc k (Object_entries v)). Qed.

(** Rule 4: without a truthy [services], the diagnostics are the top-level
    warnings followed by the missing-[services] error, and nothing else. *)
Lemma validate_missing_services (props : list (string * value)) :
  truthy (get_prop (VObj props) "services") = false ->
  validate (VObj props)
  = Ret (check_top_level_keys (VObj props) ++ check_version (VObj props)
         ++ [Diag.missing_services]).
Proof.
  intros H. unfold validate.
  cbn [typeof jstype_eqb negb orb is_null Array_isArray].
  rewrite H. cbn [negb]. now rewrite <- app_assoc.
Qed.

(** Rule 5, for the values the test [typeof services !== 'object'] catches:
    a truthy [services] that is a boolean, a number or a string. *)
Lemma validate_services_scalar (props : list (string * value)) :
  truthy (get_prop (VObj props) "services") = true ->
  typeof (get_prop (VObj props) "services") <> TObject ->
  validate (VObj props)
  = Ret (check_top_level_keys (VObj props) ++ check_version (VObj props)
         ++ [Diag.services_not_mapping]).
Proof.
  intros H Ht. unfold validate.
  cbn [typeof jstype_eqb negb orb is_null Array_isArray].
  rewrite H. cbn [negb]. unfold not_object_or_null.
  destruct (get_prop (VObj props) "services"); try discriminate;
    try (now rewrite <- app_assoc); now destruct Ht.
Qed.

(** C8, as amended: for a mapping with no [version] key and no [services]
    key, [validate] returns the unknown-top-level-key warning followed by
    the missing-[services] error when exactly one of its keys is unknown,
    and the missing-[services] error alone when none is; no further check
    runs. *)
Theorem validate_without_services (props : list (string * value)) :
  has_own (VObj props) "version" = false ->
  has_own (VObj props) "services" = false ->
  (forall key, unknown_top_level_keys (VObj props) = [key] ->
     validate (VObj props)
     = Ret [Diag.unknown_top_level_key key; Diag.missing_services]) /\
  (unknown_top_level_keys (VObj props) = [] ->
     validate (VObj props) = Ret [Diag.missing_services]).
Proof.
  intros Hv Hs.
  assert (E : validate (VObj props)
              = Ret (map Diag.unknown_top_level_key
                       (unknown_top_level_keys (VObj props))
                     ++ [Diag.missing_services])).
  { rewrite validate_missing_services
      by (rewrite (get_prop_absent _ _ Hs); reflexivity).
    rewrite check_top_level_keys_unknown. unfold check_version.
    now rewrite (get_prop_absent _ _ Hv). }
  split; [intros key Hk | intros Hk]; rewrite E, Hk; reflexivity.
Qed.

Lemma validate_without_services_witness :
  validate (VObj [("x-custom", VNum "1"); ("networks", VNull)])
  = Ret [Diag.unknown_top_level_key "x-custom"; Diag.missing_services].
Proof.
  apply (validate_without_services
           [("x-custom", VNum "1"); ("networks", VNull)]);
    reflexivity.
Defined.

(** C8, as stated, fails when the mapping has a [version] key, a known
    key: the obsolete-[version] warning is one more diagnostic.  A mapping
    with no unknown key and no [services] key gets two diagnostics, and one
    with exactly one unknown key gets three. *)
Lemma validate_version_without_services :
  let doc1 := VObj [("version", VStr "3.8")] in
  let doc2 := VObj [("version", VStr "3.8"); ("x-custom", VNum "1")] in
  unknown_top_level_keys doc1 = [] /\
  has_own doc1 "services" = false /\
  validate doc1 = Ret [Diag.obsolete_version; Diag.missing_services] /\
  validate doc1 <> Ret [Diag.missing_services] /\
  unknown_top_level_keys doc2 = ["x-custom"] /\
  has_own doc2 "services" = false /\
  validate doc2
  = Ret [Diag.unknown_top_level_key "x-custom"; Diag.obsolete_version;
         Diag.missing_services] /\
  validate doc2
  <> Ret [Diag.unknown_top_level_key "x-custom"; Diag.missing_services].
Proof. repeat split; discriminate. Qed.

(** C4 fails for a sequence: [typeof] of an array is ['object'], so the
    shape test lets it through, its indices are taken for service names,
    and this document gets no diagnostic at all. *)
Theorem validate_services_sequence :
  validate (VObj [("services", VArr [VObj [("image", VStr "nginx")]])])
  = Ret [].
Proof. vm_compute. reflexivity. Qed.

(** C9 fails where [String] is applied to a mapping with a key named
    [toString]: [validate] raises a [TypeError] instead of returning
    diagnostics. *)
Theorem validate_throws_on_toString_key :
  validate
    (VObj [("services", VObj [("web", VObj [
       ("image", VStr "nginx");
       ("restart", VObj [("toString", VStr "x")])])])])
  = Throw TypeError_primitive.
Proof. vm_compute. reflexivity. Qed.

(** ** The search: the three cases of a call *)

Lemma hasCycle_on_stack fuel services serviceNames node st :
  node ∈ inStack st ->
  hasCycle fuel services serviceNames node st = Ret (true, st).
Proof. intros H. destruct fuel; simpl; now rewrite bool_decide_eq_true_2. Qed.

Lemma hasCycle_visited fuel services serviceNames node st :
  node ∉ inStack st -> node ∈ visited st ->
  hasCycle fuel services serviceNames node st = Ret (false, st).
Proof.
  intros Hs Hv. destruct fuel; simpl;
    now rewrite bool_decide_eq_false_2, bool_decide_eq_true_2.
Qed.


(** When the loop over the dependencies of [node] meets a dependency
    [dep] that is a defined service and is on the stack, the recursive call
    answers at once and the loop pushes exactly one diagnostic, of severity
    error, whose message names [node] and [dep], the two ends of that edge,
    and which has no path; it then takes [node] off the stack and returns
    [true]. *)
Lemma hasCycle_deps_on_stack
    fuel services serviceNames node dep rest st :
  includes serviceNames dep = true ->
  dep ∈ inStack st ->
  let e := Diag.circular node dep in
  hasCycle_deps (hasCycle fuel services serviceNames) serviceNames node
    (dep :: rest) st
  = Ret (true, unstack node (push e st)) /\
  errors (unstack node (push e st)) = errors st ++ [e] /\
  severity e = SevError /\
  message e = "Circular dependency detected involving " +:+ quoted node
              +:+ " and " +:+ quoted dep +:+ "." /\
  path e = None.
Proof.
  intros Hdef Hstack e. repeat split.
  cbn [hasCycle_deps]. rewrite Hdef.
  now rewrite (hasCycle_on_stack _ _ _ _ _ Hstack).
Qed.

(** On the way back, every caller that receives [true] pushes one more
    diagnostic, for its own edge into the node it had called, and returns
    [true] in its turn. *)
Lemma hasCycle_deps_propagates rec serviceNames node dep rest st st' :
  includes serviceNames dep = true ->
  rec dep st = Ret (true, st') ->
  hasCycle_deps rec serviceNames node (dep :: rest) st
  = Ret (true, unstack node (push (Diag.circular node dep) st')).
Proof. intros Hdef Hrec. cbn [hasCycle_deps]. now rewrite Hdef, Hrec. Qed.

(** ** Documents whose services only name an image and dependencies *)




(** Past the two shape tests, [validate] is the per-service loop followed
    by the cycle check. *)
Lemma validate_services (props : list (string * value)) :
  let root := VObj props in
  let services := get_prop root "services" in
  let serviceNames := Object_keys services in
  truthy services = true ->
  not_object_or_null services = false ->
  validate root
  = let errors0 := check_top_level_keys root ++ check_version root in
    let* errors1 :=
      check_services root serviceNames (Object_entries services) in
    let* st :=
      check_cycles (length serviceNames) services serviceNames serviceNames
        (mkState ∅ ∅ (errors0 ++ errors1)) in
    Ret (errors st).
Proof.
  intros root services serviceNames Ht Ho. unfold validate.
  cbn [typeof jstype_eqb negb orb is_null Array_isArray].
  fold root. fold services. now rewrite Ht, Ho.
Qed.





(** ** [depends_on] references *)







(** ** A document with one service *)


(** ** Restart policy *)

Lemma includes_In (l : list string) (x : string) :
  includes l x = true <-> In x l.
Proof. rewrite includes_elem_of. apply list_elem_of_In. Qed.



(** ** Ports *)

Lemma usual_portb_spec (s : string) : usual_portb s = true <-> usual_port s.
Proof.
  unfold usual_portb, usual_port.
  now rewrite orb_true_iff, !regex_test_Matches.
Qed.




(** ** Which diagnostics are circular-dependency diagnostics *)

Lemma not_circular_flat_map {A : Type} (f : A -> list ValidationError)
    (l : list A) :
  (forall x, not_circular (f x)) -> not_circular (flat_map f l).
Proof.
  intros H. unfold not_circular. induction l as [|x l IH]; simpl.
  - constructor.
  - apply Forall_app. split; [apply H | exact IH].
Qed.

Lemma not_circular_app (l1 l2 : list ValidationError) :
  not_circular l1 -> not_circular l2 -> not_circular (l1 ++ l2).
Proof. intros H1 H2. apply Forall_app. now split. Qed.

Lemma circ_is_circular (e : string * string) :
  is_circular (circ e) = true /\ is_error (circ e) = true.
Proof. split; reflexivity. Qed.

Ltac not_circular_block :=
  repeat first
    [ apply Forall_nil_2
    | apply Forall_cons; split; [reflexivity|]
    | apply not_circular_flat_map; intros ?
    | match goal with |- context [if ?b then _ else _] => destruct b end
    | match goal with |- context [match ?v with _ => _ end] => destruct v end ].

Lemma check_top_level_keys_not_circular root :
  not_circular (check_top_level_keys root).
Proof. unfold check_top_level_keys, not_circular. not_circular_block. Qed.

Lemma check_version_not_circular root : not_circular (check_version root).
Proof. unfold check_version, not_circular. not_circular_block. Qed.

Lemma check_restart_not_circular name svcPath v ds :
  check_restart name svcPath v = Ret ds -> not_circular ds.
Proof.
  unfold check_restart, not_circular.
  destruct (negb (is_undefined v)); [|intros [= <-]; constructor].
  destruct (ToString v) as [restart| |]; cbn [bind]; try discriminate.
  destruct (negb _); intros [= <-]; not_circular_block.
Qed.

Lemma check_depends_on_not_circular serviceNames name svcPath v ds :
  check_depends_on serviceNames name svcPath v = Ret ds -> not_circular ds.
Proof.
  unfold check_depends_on, not_circular.
  destruct (truthy v); [|intros [= <-]; constructor].
  destruct (dependency_names v) as [deps| |]; cbn [bind]; try discriminate.
  intros [= <-]. apply not_circular_flat_map. intros dep.
  unfold check_dep. apply not_circular_app; unfold not_circular;
    not_circular_block.
Qed.

Lemma check_service_not_circular root serviceNames name def ds :
  check_service root serviceNames name def = Ret ds -> not_circular ds.
Proof.
  unfold check_service. destruct (not_object_or_null def).
  { intros [= <-]. unfold not_circular. not_circular_block. }
  destruct (check_restart _ _ _) as [e_restart| |] eqn:Hr; cbn [bind];
    try discriminate.
  destruct (check_depends_on _ _ _ _) as [e_deps| |] eqn:Hd; cbn [bind];
    try discriminate.
  intros [= <-].
  repeat apply not_circular_app.
  - unfold check_image_build, not_circular. not_circular_block.
  - unfold check_unknown_keys, not_circular. not_circular_block.
  - now apply check_restart_not_circular in Hr.
  - unfold check_ports, check_port, not_circular. not_circular_block.
  - now apply check_depends_on_not_circular in Hd.
  - unfold check_environment, not_circular. not_circular_block.
  - unfold check_volumes, check_volume, not_circular. not_circular_block.
Qed.

Lemma check_services_not_circular root serviceNames entries ds :
  check_services root serviceNames entries = Ret ds -> not_circular ds.
Proof.
  revert ds. induction entries as [|[name def] rest IH]; intros ds; simpl.
  - intros [= <-]. constructor.
  - destruct (check_service _ _ _ _) as [e| |] eqn:He; cbn [bind];
      try discriminate.
    destruct (check_services _ _ _) as [es| |]; cbn [bind]; try discriminate.
    intros [= <-]. apply not_circular_app.
    + now apply check_service_not_circular in He.
    + now apply IH.
Qed.

(** ** The cycle check inside [validate] *)

(** An array has no property named [services]: its keys start with a
    digit. *)
Lemma array_has_no_services (items : list value) :
  get_prop (VArr items) "services" = VUndefined.
Proof.
  unfold get_prop. cbn [Object_entries]. generalize 0.
  induction items as [|x items IH]; intros i; cbn [indexed_from assoc];
    [reflexivity|].
  replace (String.eqb "services" (index_key i)) with false; [apply IH|].
  unfold index_key. now destruct (Nat.to_uint i).
Qed.

Lemma no_services_no_names (doc : value) :
  (forall props, doc <> VObj props) ->
  Object_keys (get_prop doc "services") = [].
Proof.
  intros H. destruct doc; try reflexivity.
  - now rewrite array_has_no_services.
  - now destruct (H props).
Qed.

(** C10: in a call of [validate] that returns [ds], let the cycle check
    run with its log of expansions from the diagnostics [pre] of the earlier
    checks.  The log has no repetition: each service node is expanded at
    most once, all starting services sharing one visited set.  The result
    [ds] is [pre], which holds no circular-dependency diagnostic, followed
    by one circular-dependency diagnostic per reported pair; no two pairs
    start at the same service, and each starts at an expanded one, so there
    is at most one such diagnostic per service.  And when the outer loop,
    having gone through the starting services [done], enters the search
    again at a service [name] that is already visited, nothing is reported:
    the call returns [false] and leaves the state, its diagnostics
    included, as it was. *)
Theorem cycle_check_expands_once (doc : value) (ds : list ValidationError) :
  validate doc = Ret ds ->
  let services := get_prop doc "services" in
  let serviceNames := Object_keys services in
  exists pre edges st log,
    check_cycles_traced (length serviceNames) services serviceNames
      serviceNames (mkState ∅ ∅ pre) [] = Ret (st, log) /\
    errors st = ds /\
    ds = pre ++ map circ edges /\
    not_circular pre /\
    NoDup log /\
    (forall x, x ∈ log -> x ∈ serviceNames) /\
    NoDup (map fst edges) /\
    (forall x, x ∈ map fst edges -> x ∈ log) /\
    length edges <= length serviceNames /\
    (forall done name rest st1 log1,
        serviceNames = done ++ name :: rest ->
        check_cycles_traced (length serviceNames) services serviceNames
          done (mkState ∅ ∅ pre) [] = Ret (st1, log1) ->
        name ∈ visited st1 ->
        hasCycle (length serviceNames) services serviceNames name st1
        = Ret (false, st1)).
Proof.
  intros Hval services serviceNames.
  assert (Hagain : forall pre done name rest st1 log1,
             serviceNames = done ++ name :: rest ->
             check_cycles_traced (length serviceNames) services serviceNames
               done (mkState ∅ ∅ pre) [] = Ret (st1, log1) ->
             name ∈ visited st1 ->
             hasCycle (length serviceNames) services serviceNames name st1
             = Ret (false, st1)).
  { intros pre done name rest st1 log1 Hsplit Hrun Hvisited.
    pose proof (check_cycles_traced_post services serviceNames
                  (length serviceNames) done (mkState ∅ ∅ pre) []) as Hpost.
    rewrite Hrun in Hpost. destruct Hpost as [Hstack _].
    - intros x Hx. apply elem_of_list_to_set. rewrite Hsplit.
      apply elem_of_app. now left.
    - simpl. etransitivity; [|apply (size_list_to_set_le serviceNames)].
      apply subseteq_size. set_solver.
    - apply hasCycle_visited; [|assumption].
      rewrite Hstack. simpl. set_solver. }
  assert (Hearly : forall pre,
             serviceNames = [] -> ds = pre -> not_circular pre ->
             exists edges st log,
               check_cycles_traced (length serviceNames) services serviceNames
                 serviceNames (mkState ∅ ∅ pre) [] = Ret (st, log) /\
               errors st = ds /\
               ds = pre ++ map circ edges /\
               not_circular pre /\
               NoDup log /\
               (forall x, x ∈ log -> x ∈ serviceNames) /\
               NoDup (map fst edges) /\
               (forall x, x ∈ map fst edges -> x ∈ log) /\
               length edges <= length serviceNames).
  { intros pre -> -> Hpre. exists [], (mkState ∅ ∅ pre), [].
    simpl. rewrite app_nil_r.
    repeat split; try assumption; try constructor; set_solver. }
  assert (Hfinish : forall pre,
             (exists edges st log,
                 check_cycles_traced (length serviceNames) services
                   serviceNames serviceNames (mkState ∅ ∅ pre) []
                 = Ret (st, log) /\
                 errors st = ds /\
                 ds = pre ++ map circ edges /\
                 not_circular pre /\
                 NoDup log /\
                 (forall x, x ∈ log -> x ∈ serviceNames) /\
                 NoDup (map fst edges) /\
                 (forall x, x ∈ map fst edges -> x ∈ log) /\
                 length edges <= length serviceNames) ->
             exists pre edges st log,
               check_cycles_traced (length serviceNames) services serviceNames
                 serviceNames (mkState ∅ ∅ pre) [] = Ret (st, log) /\
               errors st = ds /\
               ds = pre ++ map circ edges /\
               not_circular pre /\
               NoDup log /\
               (forall x, x ∈ log -> x ∈ serviceNames) /\
               NoDup (map fst edges) /\
               (forall x, x ∈ map fst edges -> x ∈ log) /\
               length edges <= length serviceNames /\
               (forall done name rest st1 log1,
                   serviceNames = done ++ name :: rest ->
                   check_cycles_traced (length serviceNames) services
                     serviceNames done (mkState ∅ ∅ pre) [] = Ret (st1, log1) ->
                   name ∈ visited st1 ->
                   hasCycle (length serviceNames) services serviceNames name st1
                   = Ret (false, st1))).
  { intros pre (edges & st & log & H). exists pre, edges, st, log.
    repeat (split; [apply H|]). apply Hagain. }
  destruct doc as [| |b|repr|s|items|props];
    try (apply (Hfinish [Diag.root_not_mapping]), Hearly;
         [ apply no_services_no_names; discriminate
         | now injection Hval
         | repeat constructor ]).
  destruct (truthy services) eqn:Ht.
  2:{ rewrite validate_missing_services in Hval by exact Ht.
      injection Hval as <-. eapply Hfinish, Hearly; [|reflexivity|].
      - subst serviceNames. now destruct services.
      - repeat apply not_circular_app;
          [ apply check_top_level_keys_not_circular
          | apply check_version_not_circular
          | repeat constructor ]. }
  destruct (not_object_or_null services) eqn:Ho.
  { rewrite validate_services_scalar in Hval;
      [|exact Ht|fold services; now destruct services].
    injection Hval as <-. eapply Hfinish, Hearly; [|reflexivity|].
    - subst serviceNames. now destruct services.
    - repeat apply not_circular_app;
        [ apply check_top_level_keys_not_circular
        | apply check_version_not_circular
        | repeat constructor ]. }
  rewrite validate_services in Hval by assumption. cbv zeta in Hval.
  fold services serviceNames in Hval.
  destruct (check_services _ _ _) as [errors1| |] eqn:Hsvc; cbn [bind] in Hval;
    try discriminate.
  set (pre := (check_top_level_keys (VObj props)
               ++ check_version (VObj props)) ++ errors1) in *.
  rewrite <- (erase_check_cycles _ _ _ _ _ []) in Hval.
  pose proof (check_cycles_from_empty services serviceNames pre) as Hrun.
  destruct (check_cycles_traced _ _ _ _ _ _) as [[st log]| |] eqn:Htraced;
    cbn [erase_log bind] in Hval; try discriminate.
  injection Hval as Hds.
  destruct Hrun as (Hstack & Hvis & Hnodup & Hnames & edges & Herr & [Hnd Hsub]).
  apply (Hfinish pre). exists edges, st, log. repeat split; try assumption.
  - congruence.
  - subst pre. repeat apply not_circular_app.
    + apply check_top_level_keys_not_circular.
    + apply check_version_not_circular.
    + now apply check_services_not_circular in Hsvc.
  - rewrite <- (length_map fst edges).
    etransitivity; [|apply (size_list_to_set_le serviceNames)].
    rewrite <- (size_list_to_set (C := gset string) _ Hnd).
    apply subseteq_size. intros x Hx. apply elem_of_list_to_set in Hx.
    apply elem_of_list_to_set. auto.
Qed.

Lemma validate_doc_three :
  validate doc_three
  = Ret [Diag.circular "B" "A"; Diag.circular "A" "B"; Diag.circular "C" "A"].
Proof. vm_compute. reflexivity. Qed.

Lemma cycle_check_expands_once_witness :
  exists pre edges,
    validate doc_three = Ret (pre ++ map circ edges) /\
    not_circular pre /\ NoDup (map fst edges).
Proof.
  destruct (cycle_check_expands_once doc_three _ validate_doc_three)
    as (pre & edges & st & log & _ & _ & Hds & Hpre & _ & _ & Hnd & _).
  exists pre, edges. split; [|split; assumption].
  rewrite <- Hds. exact validate_doc_three.
Defined.

(** ** Termination, and where [validate] raises *)

Lemma no_toString_key_VObj (props : list (string * value)) :
  no_toString_key (VObj props)
  = negb (has_own (VObj props) "toString")
    && forallb (fun kv => no_toString_key (snd kv)) props.
Proof.
  cbn [no_toString_key]. f_equal.
  induction props as [|[k x] rest IH]; [reflexivity|].
  cbn [forallb snd]. now rewrite IH.
Qed.

Lemma ToString_returns (v : value) :
  no_toString_key v = true -> returns (ToString v).
Proof.
  induction v as [| |b|repr|s|items IH|props IH] using value_tree_ind;
    intros Hv; try (eexists; reflexivity).
  - destruct b; eexists; reflexivity.
  - rewrite ToString_VArr. cbn [no_toString_key] in Hv.
    assert (He : forall x, x ∈ items -> returns (ToString_element x)).
    { intros x Hx. rewrite Forall_forall in IH.
      rewrite forallb_forall in Hv.
      specialize (IH x Hx (Hv x (proj1 (list_elem_of_In _ _) Hx))).
      destruct x; simpl; solve [eexists; reflexivity | exact IH]. }
    clear IH Hv. induction items as [|x rest IHl]; [eexists; reflexivity|].
    assert (Hx : returns (ToString_element x)) by (apply He; left).
    destruct rest as [|y rest]; [exact Hx|].
    change (Array_join (x :: y :: rest))
      with (let* s := ToString_element x in
            let* r := Array_join (y :: rest) in
            Ret (s +:+ "," +:+ r)).
    destruct Hx as [s ->]. cbn [bind].
    destruct IHl as [r ->]; [intros z Hz; apply He; now right|].
    eexists; reflexivity.
  - rewrite no_toString_key_VObj in Hv. apply andb_true_iff in Hv as [Hv _].
    cbn [ToString]. destruct (has_own _ _); [discriminate|].
    eexists; reflexivity.
Qed.

Lemma map_String_returns (items : list value) :
  forallb no_toString_key items = true -> returns (map_String items).
Proof.
  induction items as [|x rest IH]; simpl; [eexists; reflexivity|].
  intros [Hx Hr]%andb_true_iff.
  destruct (ToString_returns x Hx) as [s ->]. cbn [bind].
  destruct (IH Hr) as [ss ->]. eexists; reflexivity.
Qed.

Lemma dependency_names_returns (v : value) :
  no_toString_key v = true -> returns (dependency_names v).
Proof.
  destruct v; intros Hv; try (eexists; reflexivity).
  now apply map_String_returns.
Qed.

Lemma assoc_no_toString_key k (l : list (string * value)) x :
  forallb (fun kv => no_toString_key (snd kv)) l = true ->
  assoc k l = Some x -> no_toString_key x = true.
Proof.
  induction l as [|[k' y] rest IH]; simpl; [discriminate|].
  intros [Hy Hr]%andb_true_iff. destruct (String.eqb k k'); [|now apply IH].
  now intros [= <-].
Qed.

Lemma entries_no_toString_key (v : value) :
  no_toString_key v = true ->
  forallb (fun kv => no_toString_key (snd kv)) (Object_entries v) = true.
Proof.
  destruct v; try reflexivity.
  - cbn [no_toString_key Object_entries]. generalize 0.
    induction items as [|x items IH]; intros i; simpl; [reflexivity|].
    intros [Hx Hr]%andb_true_iff. rewrite Hx. now apply IH.
  - rewrite no_toString_key_VObj. now intros [_ H]%andb_true_iff.
Qed.

Lemma get_prop_no_toString_key (v : value) (k : string) :
  no_toString_key v = true -> no_toString_key (get_prop v k) = true.
Proof.
  intros Hv. unfold get_prop.
  destruct (assoc k (Object_entries v)) as [x|] eqn:E; [|reflexivity].
  exact (assoc_no_toString_key _ _ _ (entries_no_toString_key v Hv) E).
Qed.

Lemma check_service_fuel root serviceNames name def :
  check_service root serviceNames name def <> OutOfFuel.
Proof.
  unfold check_service. destruct (not_object_or_null def); [discriminate|].
  apply bind_fuel.
  - unfold check_restart. destruct (negb _); [|discriminate].
    apply bind_fuel; [apply ToString_fuel|].
    intros restart. destruct (negb _); discriminate.
  - intros e_restart. apply bind_fuel; [|discriminate].
    unfold check_depends_on. destruct (truthy _); [|discriminate].
    apply bind_fuel; [apply dependency_names_fuel | discriminate].
Qed.

Lemma check_services_fuel root serviceNames entries :
  check_services root serviceNames entries <> OutOfFuel.
Proof.
  induction entries as [|[name def] rest IH]; simpl; [discriminate|].
  apply bind_fuel; [apply check_service_fuel|]. intros e.
  apply bind_fuel; [exact IH | discriminate].
Qed.

Lemma check_service_returns root serviceNames name def :
  no_toString_key def = true ->
  returns (check_service root serviceNames name def).
Proof.
  intros Hdef. unfold check_service.
  destruct (not_object_or_null def); [eexists; reflexivity|].
  assert (Hr : returns (check_restart name ("services." +:+ name)
                          (get_prop def "restart"))).
  { unfold check_restart. destruct (negb _); [|eexists; reflexivity].
    destruct (ToString_returns _ (get_prop_no_toString_key def "restart" Hdef))
      as [restart ->].
    cbn [bind]. destruct (negb _); eexists; reflexivity. }
  assert (Hd : returns (check_depends_on serviceNames name
                          ("services." +:+ name) (get_prop def "depends_on"))).
  { unfold check_depends_on. destruct (truthy _); [|eexists; reflexivity].
    destruct (dependency_names_returns _
                (get_prop_no_toString_key def "depends_on" Hdef))
      as [deps ->].
    eexists; reflexivity. }
  destruct Hr as [e_restart ->]. destruct Hd as [e_deps ->].
  eexists; reflexivity.
Qed.

Lemma check_services_returns root serviceNames entries :
  forallb (fun kv => no_toString_key (snd kv)) entries = true ->
  returns (check_services root serviceNames entries).
Proof.
  induction entries as [|[name def] rest IH]; simpl; [eexists; reflexivity|].
  intros [Hdef Hrest]%andb_true_iff.
  destruct (check_service_returns root serviceNames name def Hdef) as [e ->].
  destruct (IH Hrest) as [es ->]. eexists; reflexivity.
Qed.

(** The cycle check of [validate]: it never runs out of fuel, and it
    raises only if the search does. *)
Lemma check_cycles_outcome services pre :
  let serviceNames := Object_keys services in
  match check_cycles (length serviceNames) services serviceNames serviceNames
          (mkState ∅ ∅ pre) with
  | Ret _ => True
  | Throw _ => search_raises services
  | OutOfFuel => False
  end.
Proof.
  intros serviceNames.
  rewrite <- (erase_check_cycles _ _ _ _ _ []).
  pose proof (check_cycles_from_empty services serviceNames pre) as H.
  destruct (check_cycles_traced _ _ _ _ _ _) as [[st log]| |];
    cbn [erase_log bind]; [exact I | exact H | exact H].
Qed.

(** X1: [validate] always terminates: the fuel it gives the search
    suffices. *)
Theorem validate_terminates (doc : value) : validate doc <> OutOfFuel.
Proof.
  destruct doc as [| |b|repr|s|items|props]; try discriminate.
  destruct (truthy (get_prop (VObj props) "services")) eqn:Ht.
  2:{ now rewrite validate_missing_services. }
  destruct (not_object_or_null (get_prop (VObj props) "services")) eqn:Ho.
  { rewrite validate_services_scalar; [discriminate|exact Ht|].
    now destruct (get_prop (VObj props) "services"). }
  rewrite validate_services by assumption. cbv zeta.
  apply bind_fuel; [apply check_services_fuel|]. intros errors1.
  pose proof (check_cycles_outcome (get_prop (VObj props) "services")
                ((check_top_level_keys (VObj props)
                  ++ check_version (VObj props)) ++ errors1)) as H.
  cbv zeta in H.
  destruct (check_cycles _ _ _ _ _); cbn [bind]; [discriminate..|destruct H].
Qed.

(** X2: [validate] returns its diagnostics for every document in which
    no mapping has a key named [toString]. *)
Theorem validate_returns (doc : value) :
  no_toString_key doc = true -> returns (validate doc).
Proof.
  intros Hdoc.
  destruct doc as [| |b|repr|s|items|props]; try (eexists; reflexivity).
  set (services := get_prop (VObj props) "services").
  assert (Hsvc : no_toString_key services = true)
    by now apply get_prop_no_toString_key.
  destruct (truthy services) eqn:Ht.
  2:{ rewrite validate_missing_services by exact Ht. eexists; reflexivity. }
  destruct (not_object_or_null services) eqn:Ho.
  { rewrite validate_services_scalar;
      [eexists; reflexivity | exact Ht | fold services; now destruct services]. }
  rewrite validate_services by assumption. cbv zeta. fold services.
  destruct (check_services_returns (VObj props) (Object_keys services)
              (Object_entries services) (entries_no_toString_key _ Hsvc))
    as [errors1 ->].
  cbn [bind].
  pose proof (check_cycles_outcome services
                ((check_top_level_keys (VObj props)
                  ++ check_version (VObj props)) ++ errors1)) as H.
  cbv zeta in H.
  destruct (check_cycles _ _ _ _ _) as [st|msg|]; cbn [bind].
  - eexists; reflexivity.
  - destruct H as (node & msg' & Hthrow).
    destruct (dependency_names_returns
                (get_prop (get_prop services node) "depends_on")) as [deps E].
    { now repeat apply get_prop_no_toString_key. }
    congruence.
  - destruct H.
Qed.

Lemma validate_returns_witness : returns (validate doc_three).
Proof. apply (validate_returns doc_three). vm_compute. reflexivity. Defined.

(** ** The cycle check finds exactly the cycles *)

Section CycleSearch.

Variable services : value.
Variable serviceNames : list string.

#[local] Abbreviation E := (edge services serviceNames).

Lemma edge_intro node deps dep :
  truthy (depends_on_of services node) = true ->
  dependency_names (depends_on_of services node) = Ret deps ->
  dep ∈ deps -> includes serviceNames dep = true ->
  E node dep.
Proof.
  intros Ht Hd Hin Hdef. split; [assumption|]. exists deps.
  repeat split; try assumption. now apply includes_elem_of.
Qed.

Lemma edge_inv node deps dep :
  dependency_names (depends_on_of services node) = Ret deps ->
  E node dep -> dep ∈ deps /\ includes serviceNames dep = true.
Proof.
  intros Hd (_ & deps' & Hd' & Hin & Hdef).
  assert (deps' = deps) as -> by congruence.
  split; [assumption | now apply includes_elem_of].
Qed.

Lemma hasCycle_deps_sound rec node all_deps deps st r :
  (forall dep st r,
      (forall s, s ∈ inStack st -> tc E s dep) ->
      rec dep st = Ret r -> sound_post services serviceNames st dep r) ->
  truthy (depends_on_of services node) = true ->
  dependency_names (depends_on_of services node) = Ret all_deps ->
  (forall d, d ∈ deps -> d ∈ all_deps) ->
  (forall s, s ∈ inStack st -> s = node \/ tc E s node) ->
  hasCycle_deps rec serviceNames node deps st = Ret r ->
  (if fst r then inStack (snd r) = inStack st ∖ {[node]}
   else inStack (snd r) = inStack st) /\
  (fst r = true -> reaches_cycle services serviceNames node) /\
  exists edges,
    errors (snd r) = errors st ++ map circ edges /\
    forall e, e ∈ edges ->
      E (fst e) (snd e) /\ reaches_cycle services serviceNames (snd e).
Proof.
  intros Hrec Ht Hall. revert st.
  induction deps as [|dep rest IH]; intros st Hsub Hstack Hrun;
    cbn [hasCycle_deps] in Hrun.
  - injection Hrun as <-. cbn [fst snd]. split; [reflexivity|].
    split; [discriminate|]. exists []. simpl. rewrite app_nil_r.
    split; [reflexivity | intros e He; inversion He].
  - assert (Hrest : forall d, d ∈ rest -> d ∈ all_deps)
      by (intros d Hd; apply Hsub; now right).
    destruct (includes serviceNames dep) eqn:Hdef; [|now apply IH].
    assert (Hedge : E node dep)
      by (apply (edge_intro node all_deps); auto; apply Hsub; left).
    destruct (rec dep st) as [[found st1]| |] eqn:Hcall; cbn [bind] in Hrun;
      try discriminate.
    assert (Hpre : forall s, s ∈ inStack st -> tc E s dep).
    { intros s Hs. destruct (Hstack s Hs) as [->|Hp].
      - now apply tc_once.
      - eapply tc_r; eassumption. }
    destruct (Hrec dep st _ Hpre Hcall) as (Hst1 & Hcyc & edges1 & He1 & Hok1).
    cbn [fst snd] in *. destruct found.
    + injection Hrun as <-. cbn [fst snd unstack push inStack errors].
      specialize (Hcyc eq_refl).
      assert (Hnode : reaches_cycle services serviceNames node).
      { destruct Hcyc as (c & Hreach & Hc). exists c.
        split; [eapply rtc_l; eassumption | assumption]. }
      split; [now rewrite Hst1|]. split; [auto|].
      exists (edges1 ++ [(node, dep)]). split.
      * rewrite He1, map_app. now rewrite app_assoc.
      * intros e [He| ->%list_elem_of_singleton]%elem_of_app; [auto|].
        now split.
    + destruct (IH st1 Hrest) as (Hst2 & Hcyc2 & edges2 & He2 & Hok2);
        [now rewrite Hst1 | exact Hrun |].
      split; [now rewrite <- Hst1|]. split; [assumption|].
      exists (edges1 ++ edges2). split.
      * rewrite He2, He1, map_app. now rewrite app_assoc.
      * intros e [He|He]%elem_of_app; auto.
Qed.

Lemma hasCycle_sound fuel node st r :
  (forall s, s ∈ inStack st -> tc E s node) ->
  hasCycle fuel services serviceNames node st = Ret r ->
  sound_post services serviceNames st node r.
Proof.
  revert node st r. induction fuel as [|fuel IH]; intros node st r Hpre Hrun;
    cbn [hasCycle] in Hrun.
  - case_bool_decide as Hs; [|case_bool_decide as Hv; [|discriminate]];
      injection Hrun as <-; (split; [reflexivity|]); cbn [fst snd].
    + split.
      * intros _. exists node. split; [apply rtc_refl | now apply Hpre].
      * exists []. simpl. rewrite app_nil_r.
        split; [reflexivity | intros e He; inversion He].
    + split; [discriminate|]. exists []. simpl. rewrite app_nil_r.
      split; [reflexivity | intros e He; inversion He].
  - case_bool_decide as Hs; [|case_bool_decide as Hv].
    + injection Hrun as <-. split; [reflexivity|]. cbn [fst snd]. split.
      * intros _. exists node. split; [apply rtc_refl | now apply Hpre].
      * exists []. simpl. rewrite app_nil_r.
        split; [reflexivity | intros e He; inversion He].
    + injection Hrun as <-. split; [reflexivity|]. cbn [fst snd].
      split; [discriminate|]. exists []. simpl. rewrite app_nil_r.
      split; [reflexivity | intros e He; inversion He].
    + cbv zeta in Hrun. fold (depends_on_of services node) in Hrun.
      destruct (truthy (depends_on_of services node)) eqn:Ht.
      2:{ injection Hrun as <-. cbn [fst snd]. split.
          - now apply unstack_mark_inStack.
          - split; [discriminate|]. exists []. simpl. rewrite app_nil_r.
            split; [reflexivity | intros e He; inversion He]. }
      destruct (dependency_names (depends_on_of services node))
        as [deps| |] eqn:Hdeps; cbn [bind] in Hrun; try discriminate.
      destruct (hasCycle_deps _ _ _ _ _) as [[found st2]| |] eqn:Hloop;
        cbn [bind] in Hrun; try discriminate.
      destruct (hasCycle_deps_sound (hasCycle fuel services serviceNames)
                  node deps deps (mark node st) (found, st2))
        as (Hstack & Hcyc & edges & Herr & Hok); auto.
      { intros s Hs'. cbn [mark inStack] in Hs'.
        apply elem_of_union in Hs' as [->%elem_of_singleton|Hs'];
          [now left | right; now apply Hpre]. }
      cbn [fst snd] in *.
      pose proof (unstack_mark_inStack node st Hs) as Hback.
      cbn [mark errors] in Herr.
      destruct found; injection Hrun as <-; unfold sound_post; cbn [fst snd];
        cbv iota in Hstack.
      * split; [congruence|]. split; [assumption|]. now exists edges.
      * split; [cbn [unstack inStack]; congruence|].
        split; [discriminate|]. now exists edges.
Qed.

Lemma tc_inv_l (x z : string) :
  tc E x z -> exists y, E x y /\ rtc E y z.
Proof.
  intros H. destruct H as [x z H|x y z H1 H2].
  - exists z. split; [assumption | apply rtc_refl].
  - exists y. split; [assumption | now apply tc_rtc].
Qed.

Lemma app_cons_ne {A : Type} (l more : list A) (x : A) :
  l ++ more ++ [x] <> l.
Proof.
  intros H. apply (f_equal length) in H. rewrite !length_app in H.
  simpl in H. lia.
Qed.

(** The explored nodes are closed under reachability. *)
Lemma closed_rtc st v x :
  explored_ok services serviceNames st ->
  closed st v -> rtc E v x -> closed st x.
Proof.
  intros Hok Hv Hreach. induction Hreach as [|v d x Hedge _ IH];
    [assumption|].
  apply IH. now apply (Hok v Hv).
Qed.

Lemma hasCycle_deps_complete rec node deps st r :
  (forall dep st r,
      explored_ok services serviceNames st -> inStack st ⊆ visited st ->
      rec dep st = Ret r -> complete_post services serviceNames st dep r) ->
  explored_ok services serviceNames st -> inStack st ⊆ visited st ->
  hasCycle_deps rec serviceNames node deps st = Ret r ->
  visited st ⊆ visited (snd r) /\
  (exists more, errors (snd r) = errors st ++ more) /\
  (fst r = false ->
     inStack (snd r) = inStack st /\
     errors (snd r) = errors st /\
     explored_ok services serviceNames (snd r) /\
     forall d, d ∈ deps -> includes serviceNames d = true ->
               closed (snd r) d) /\
  (fst r = true ->
     inStack (snd r) = inStack st ∖ {[node]} /\
     errors (snd r) <> errors st).
Proof.
  intros Hrec. revert st.
  induction deps as [|dep rest IH]; intros st Hok Hsub Hrun;
    cbn [hasCycle_deps] in Hrun.
  - injection Hrun as <-. cbn [fst snd]. split; [reflexivity|].
    split; [exists []; now rewrite app_nil_r|].
    split; [|discriminate]. intros _.
    split; [reflexivity|]. split; [reflexivity|]. split; [assumption|].
    intros d Hd. inversion Hd.
  - destruct (includes serviceNames dep) eqn:Hdef.
    2:{ destruct (IH st Hok Hsub Hrun) as (Hv & Hmore & Hfalse & Htrue).
        split; [assumption|]. split; [assumption|]. split; [|assumption].
        intros Hf. destruct (Hfalse Hf) as (Hs & He & Hok' & Hcl).
        split; [assumption|]. split; [assumption|]. split; [assumption|].
        intros d [->|Hd]%elem_of_cons Hd'; [congruence|]. now apply Hcl. }
    destruct (rec dep st) as [[found st1]| |] eqn:Hcall; cbn [bind] in Hrun;
      try discriminate.
    destruct (Hrec dep st _ Hok Hsub Hcall)
      as (Hst1 & Hv1 & [more1 Hm1] & Hfalse1 & _).
    cbn [fst snd] in *. destruct found.
    + injection Hrun as <-. cbn [fst snd unstack push inStack errors visited].
      split; [assumption|]. split.
      * exists (more1 ++ [Diag.circular node dep]).
        rewrite Hm1. now rewrite app_assoc.
      * split; [discriminate|]. intros _. split; [now rewrite Hst1|].
        rewrite Hm1, <- app_assoc. apply app_cons_ne.
    + destruct (Hfalse1 eq_refl) as (He1 & Hok1 & Hc1).
      destruct (IH st1 Hok1) as (Hv2 & [more2 Hm2] & Hfalse2 & Htrue2);
        [rewrite Hst1; set_solver | exact Hrun |].
      split; [set_solver|]. split; [exists more2; congruence|].
      split.
      * intros Hf. destruct (Hfalse2 Hf) as (Hs2 & He2 & Hok2 & Hcl2).
        split; [congruence|]. split; [congruence|]. split; [assumption|].
        intros d [->|Hd]%elem_of_cons Hd'; [|now apply Hcl2].
        destruct Hc1 as [Hc1v Hc1s]. split; [set_solver|].
        now rewrite Hs2.
      * intros Hf. destruct (Htrue2 Hf) as [Hs2 He2].
        split; congruence.
Qed.

Lemma explored_ok_mark node st :
  explored_ok services serviceNames st -> node ∉ visited st ->
  explored_ok services serviceNames (mark node st).
Proof.
  intros Hok Hv v [Hvv Hvs]. cbn [mark visited inStack] in *.
  assert (Hc : closed st v) by (split; set_solver).
  destruct (Hok v Hc) as [Hsucc Hcyc]. split; [|assumption].
  intros d Hd. destruct (Hsucc d Hd) as [Hdv Hds].
  split; cbn [mark visited inStack]; set_solver.
Qed.

(** A node is closed once its dependencies are: it then lies on no cycle. *)
Lemma explored_ok_unstack node st :
  explored_ok services serviceNames st ->
  node ∈ visited st -> node ∈ inStack st ->
  (forall d, E node d -> closed st d) ->
  explored_ok services serviceNames (unstack node st).
Proof.
  intros Hok Hv Hs Hsucc v [Hvv Hvs]. cbn [unstack visited inStack] in *.
  assert (Hkeep : forall d, closed st d -> closed (unstack node st) d).
  { intros d [Hd1 Hd2]. split; cbn [unstack visited inStack]; set_solver. }
  destruct (decide (v = node)) as [->|Hne].
  - split; [intros d Hd; now apply Hkeep, Hsucc|].
    intros Hcyc. apply tc_inv_l in Hcyc as (d & Hd & Hback).
    destruct (closed_rtc st d node Hok (Hsucc d Hd) Hback) as [_ Hout].
    contradiction.
  - assert (Hc : closed st v) by (split; set_solver).
    destruct (Hok v Hc) as [Hsucc' Hcyc]. split; [|assumption].
    intros d Hd. now apply Hkeep, Hsucc'.
Qed.

Lemma hasCycle_complete fuel node st r :
  explored_ok services serviceNames st -> inStack st ⊆ visited st ->
  hasCycle fuel services serviceNames node st = Ret r ->
  complete_post services serviceNames st node r.
Proof.
  revert node st r.
  induction fuel as [|fuel IH]; intros node st r Hok Hsub Hrun;
    cbn [hasCycle] in Hrun.
  - case_bool_decide as Hs; [|case_bool_decide as Hv; [|discriminate]];
      injection Hrun as <-; unfold complete_post; cbn [fst snd].
    + split; [reflexivity|]. split; [reflexivity|].
      split; [exists []; now rewrite app_nil_r|].
      split; [discriminate | now left].
    + split; [reflexivity|]. split; [reflexivity|].
      split; [exists []; now rewrite app_nil_r|].
      split; [|discriminate]. intros _. split; [reflexivity|]. now split.
  - case_bool_decide as Hs; [|case_bool_decide as Hv].
    + injection Hrun as <-; unfold complete_post; cbn [fst snd].
      split; [reflexivity|]. split; [reflexivity|].
      split; [exists []; now rewrite app_nil_r|].
      split; [discriminate | now left].
    + injection Hrun as <-; unfold complete_post; cbn [fst snd].
      split; [reflexivity|]. split; [reflexivity|].
      split; [exists []; now rewrite app_nil_r|].
      split; [|discriminate]. intros _. split; [reflexivity|]. now split.
    + cbv zeta in Hrun. fold (depends_on_of services node) in Hrun.
      pose proof (explored_ok_mark node st Hok Hv) as Hok1.
      pose proof (unstack_mark_inStack node st Hs) as Hback.
      assert (Hsub1 : inStack (mark node st) ⊆ visited (mark node st))
        by (cbn [mark visited inStack]; set_solver).
      destruct (truthy (depends_on_of services node)) eqn:Ht.
      2:{ injection Hrun as <-. unfold complete_post. cbn [fst snd].
          split; [exact Hback|].
          split; [cbn [unstack mark visited]; set_solver|].
          split; [exists []; now rewrite app_nil_r|].
          split; [|discriminate]. intros _. split; [reflexivity|]. split.
          - apply explored_ok_unstack;
              [ exact Hok1
              | cbn [mark visited]; apply elem_of_union_l;
                now apply elem_of_singleton
              | cbn [mark inStack]; apply elem_of_union_l;
                now apply elem_of_singleton
              | intros d [Hd _]; congruence ].
          - split; cbn [unstack mark visited inStack]; set_solver. }
      destruct (dependency_names (depends_on_of services node))
        as [deps| |] eqn:Hdeps; cbn [bind] in Hrun; try discriminate.
      destruct (hasCycle_deps _ _ _ _ _) as [[found st2]| |] eqn:Hloop;
        cbn [bind] in Hrun; try discriminate.
      destruct (hasCycle_deps_complete (hasCycle fuel services serviceNames)
                  node deps (mark node st) (found, st2) IH Hok1 Hsub1 Hloop)
        as (Hv2 & [more Hmore] & Hfalse & Htrue).
      cbn [fst snd mark visited errors] in Hv2, Hmore.
      cbn [fst snd] in Hfalse, Htrue.
      destruct found; injection Hrun as <-; unfold complete_post;
        cbn [fst snd].
      * destruct (Htrue eq_refl) as [Hstack Herr].
        split; [congruence|]. split; [set_solver|].
        split; [now exists more|]. split; [discriminate|].
        intros _. now right.
      * destruct (Hfalse eq_refl) as (Hstack & Herr & Hok2 & Hcl).
        cbn [mark errors] in Herr.
        split; [cbn [unstack inStack]; congruence|].
        split; [cbn [unstack visited]; set_solver|].
        split; [now exists more|]. split; [|discriminate]. intros _.
        split; [assumption|]. split.
        -- apply explored_ok_unstack; try assumption.
           ++ set_solver.
           ++ rewrite Hstack. cbn [mark inStack]. set_solver.
           ++ intros d Hd. apply (edge_inv node deps d Hdeps) in Hd as [Hd1 Hd2].
              now apply Hcl.
        -- split; cbn [unstack visited inStack]; set_solver.
Qed.

Lemma check_cycles_sound fuel todo st st' :
  inStack st = ∅ ->
  check_cycles fuel services serviceNames todo st = Ret st' ->
  inStack st' = ∅ /\
  exists edges,
    errors st' = errors st ++ map circ edges /\
    forall e, e ∈ edges ->
      E (fst e) (snd e) /\ reaches_cycle services serviceNames (snd e).
Proof.
  revert st. induction todo as [|name rest IH]; intros st Hempty Hrun;
    cbn [check_cycles] in Hrun.
  - injection Hrun as <-. split; [assumption|]. exists []. simpl.
    rewrite app_nil_r. split; [reflexivity | intros e He; inversion He].
  - destruct (hasCycle _ _ _ _ _) as [[found st1]| |] eqn:Hcall;
      cbn [bind] in Hrun; try discriminate.
    destruct (hasCycle_sound fuel name st (found, st1))
      as (Hstack & _ & edges1 & He1 & Hok1); [set_solver|assumption|].
    cbn [fst snd] in *.
    destruct (IH st1) as (Hempty' & edges2 & He2 & Hok2);
      [congruence|assumption|].
    split; [assumption|]. exists (edges1 ++ edges2). split.
    + rewrite He2, He1, map_app. now rewrite app_assoc.
    + intros e [He|He]%elem_of_app; auto.
Qed.

Lemma check_cycles_complete fuel todo st st' :
  explored_ok services serviceNames st -> inStack st = ∅ ->
  check_cycles fuel services serviceNames todo st = Ret st' ->
  errors st' = errors st ->
  visited st ⊆ visited st' /\
  explored_ok services serviceNames st' /\
  forall n, n ∈ todo -> closed st' n.
Proof.
  revert st. induction todo as [|name rest IH]; intros st Hok Hempty Hrun Herr;
    cbn [check_cycles] in Hrun.
  - injection Hrun as <-. split; [reflexivity|].
    split; [assumption | intros n Hn; inversion Hn].
  - destruct (hasCycle _ _ _ _ _) as [[found st1]| |] eqn:Hcall;
      cbn [bind] in Hrun; try discriminate.
    destruct (hasCycle_complete fuel name st (found, st1))
      as (Hstack & Hvis & [more Hmore] & Hfalse & Htrue);
      [assumption|set_solver|assumption|].
    cbn [fst snd] in *.
    assert (Hempty1 : inStack st1 = ∅) by congruence.
    destruct (check_cycles_sound fuel rest st1 st' Hempty1 Hrun)
      as (Hempty' & edges & He & _).
    assert (Hsame : errors st1 = errors st).
    { rewrite Hmore. rewrite Hmore, Herr in He.
      rewrite <- app_assoc in He.
      apply (f_equal length) in He. rewrite !length_app in He.
      destruct more; [now rewrite app_nil_r | simpl in He; lia]. }
    destruct found.
    { destruct (Htrue eq_refl) as [Hin|Hne]; [|contradiction].
      rewrite Hempty in Hin. now apply not_elem_of_empty in Hin. }
    destruct (Hfalse eq_refl) as (_ & Hok1 & [Hv1 Hs1]).
    destruct (IH st1 Hok1 Hempty1 Hrun) as (Hvis' & Hok' & Hcl');
      [congruence|].
    split; [set_solver|]. split; [assumption|].
    intros n [->|Hn]%elem_of_cons; [|now apply Hcl'].
    split; [set_solver | rewrite Hempty'; set_solver].
Qed.

End CycleSearch.

(** The four ways a call of [validate] returns. *)
Lemma validate_cases (doc : value) (ds : list ValidationError) :
  validate doc = Ret ds ->
  let top := check_top_level_keys doc ++ check_version doc in
  let services := get_prop doc "services" in
  let serviceNames := Object_keys services in
  ((forall props, doc <> VObj props) /\ ds = [Diag.root_not_mapping]) \/
  ((exists props, doc = VObj props) /\
   ((truthy services = false /\ ds = top ++ [Diag.missing_services]) \/
    (truthy services = true /\ typeof services <> TObject /\
     ds = top ++ [Diag.services_not_mapping]) \/
    (truthy services = true /\ typeof services = TObject /\
     exists errors1 st,
       check_services doc serviceNames (Object_entries services)
       = Ret errors1 /\
       check_cycles (length serviceNames) services serviceNames serviceNames
         (mkState ∅ ∅ (top ++ errors1)) = Ret st /\
       ds = errors st))).
Proof.
  intros Hval top services serviceNames.
  destruct doc as [| |b|repr|s|items|props];
    try (left; split; [discriminate | now injection Hval]).
  right. split; [now exists props|].
  destruct (truthy services) eqn:Ht.
  2:{ left. split; [reflexivity|].
      rewrite validate_missing_services in Hval by exact Ht.
      injection Hval as <-. subst top. now rewrite app_assoc. }
  right. destruct (not_object_or_null services) eqn:Ho.
  - left. assert (Hty : typeof services <> TObject)
      by (subst services; destruct (get_prop (VObj props) "services");
          try discriminate).
    rewrite validate_services_scalar in Hval by assumption.
    injection Hval as <-. subst top. now rewrite app_assoc.
  - right. assert (Hty : typeof services = TObject)
      by (subst services; destruct (get_prop (VObj props) "services");
          try discriminate; reflexivity).
    rewrite validate_services in Hval by assumption. cbv zeta in Hval.
    fold services serviceNames in Hval.
    destruct (check_services _ _ _) as [errors1| |] eqn:Hsvc;
      cbn [bind] in Hval; try discriminate.
    destruct (check_cycles _ _ _ _ _) as [st| |] eqn:Hcyc;
      cbn [bind] in Hval; try discriminate.
    injection Hval as <-. repeat split; try assumption.
    now exists errors1, st.
Qed.

Lemma no_edge_without_names services node dep : ~ edge services [] node dep.
Proof. intros (_ & deps & _ & _ & H). inversion H. Qed.

Lemma on_cycle_is_service services serviceNames node :
  on_cycle services serviceNames node -> node ∈ serviceNames.
Proof.
  unfold on_cycle. intros H.
  assert (Hgen : forall x y, tc (edge services serviceNames) x y ->
                             y ∈ serviceNames).
  { intros x y Hxy. induction Hxy as [x y Hxy|x y z _ _ IH]; [|assumption].
    destruct Hxy as (_ & deps & _ & _ & Hy). exact Hy. }
  exact (Hgen _ _ H).
Qed.

(** How the result of [validate] splits at the cycle check. *)
Lemma validate_cycle_part (doc : value) (ds : list ValidationError) :
  validate doc = Ret ds ->
  let services := get_prop doc "services" in
  let serviceNames := Object_keys services in
  exists pre st,
    not_circular pre /\
    check_cycles (length serviceNames) services serviceNames serviceNames
      (mkState ∅ ∅ pre) = Ret st /\
    ds = errors st.
Proof.
  intros Hval services serviceNames.
  assert (Htop : not_circular
                   (check_top_level_keys doc ++ check_version doc))
    by (apply not_circular_app;
        [apply check_top_level_keys_not_circular
        |apply check_version_not_circular]).
  assert (Hearly : serviceNames = [] -> not_circular ds ->
                   exists pre st,
                     not_circular pre /\
                     check_cycles (length serviceNames) services serviceNames
                       serviceNames (mkState ∅ ∅ pre) = Ret st /\
                     ds = errors st).
  { intros -> Hds. now exists ds, (mkState ∅ ∅ ds). }
  destruct (validate_cases doc ds Hval)
    as [[Hroot ->]|[[props ->] [[Ht ->]|[(Ht & Hty & ->)|(Ht & Hty & Hrun)]]]].
  - apply Hearly; [now apply no_services_no_names | repeat constructor].
  - apply Hearly.
    + subst serviceNames services.
      now destruct (get_prop (VObj props) "services").
    + apply not_circular_app; [assumption | repeat constructor].
  - apply Hearly.
    + subst serviceNames services.
      destruct (get_prop (VObj props) "services"); try reflexivity;
        now destruct Hty.
    + apply not_circular_app; [assumption | repeat constructor].
  - destruct Hrun as (errors1 & st & Hsvc & Hcyc & ->).
    exists ((check_top_level_keys (VObj props) ++ check_version (VObj props))
            ++ errors1), st.
    split; [|now split].
    apply not_circular_app; [assumption|].
    now apply check_services_not_circular in Hsvc.
Qed.

(** ** The search: erasure of the back edges *)

Lemma erase_hasCycle_deps_hits rec_h rec serviceNames node path deps st log :
  (forall dep path st log, erase (rec_h dep path st log) = rec dep st) ->
  erase (hasCycle_deps_hits rec_h serviceNames node path deps st log)
  = hasCycle_deps rec serviceNames node deps st.
Proof.
  intros Hrec. revert st log.
  induction deps as [|dep rest IH]; intros st log; simpl; [reflexivity|].
  destruct (includes serviceNames dep); [|apply IH].
  match goal with
  | |- context [rec_h dep ?p st ?l] =>
      rewrite <- (Hrec dep p st l);
      destruct (rec_h dep p st l) as [[[found st'] log']| |]
  end; simpl; [|reflexivity|reflexivity].
  destruct found; [reflexivity | apply IH].
Qed.

Lemma erase_hasCycle_hits fuel services serviceNames node path st log :
  erase (hasCycle_hits fuel services serviceNames node path st log)
  = hasCycle fuel services serviceNames node st.
Proof.
  revert node path st log.
  induction fuel as [|fuel IH]; intros node path st log; simpl.
  - repeat case_bool_decide; reflexivity.
  - repeat case_bool_decide; try reflexivity.
    destruct (truthy _); [|reflexivity].
    destruct (dependency_names _) as [deps| |]; simpl; try reflexivity.
    rewrite <- (erase_hasCycle_deps_hits _ (hasCycle fuel services serviceNames)
                  serviceNames node path deps (mark node st) log IH).
    destruct (hasCycle_deps_hits _ _ _ _ _ _ _) as [[[found st2] log2]| |];
      simpl; try reflexivity.
    destruct found; reflexivity.
Qed.

Lemma erase_check_cycles_hits fuel services serviceNames todo st log :
  erase_log (check_cycles_hits fuel services serviceNames todo st log)
  = check_cycles fuel services serviceNames todo st.
Proof.
  revert st log. induction todo as [|name rest IH]; intros st log; simpl;
    [reflexivity|].
  rewrite <- (erase_hasCycle_hits fuel services serviceNames name [] st log).
  destruct (hasCycle_hits _ _ _ _ _ _ _) as [[[found st'] log']| |]; simpl;
    try reflexivity.
  apply IH.
Qed.

(** ** The search: what is reported for a back edge *)

Section BackEdges.

Variable services : value.
Variable serviceNames : list string.

#[local] Abbreviation G := (edge services serviceNames).

(** Along a chain of calls, the node of every call in progress reaches the
    node of the innermost one. *)
Lemma linked_tc path node a :
  linked path node ->
  (forall e, e ∈ path -> G (fst e) (snd e)) ->
  a ∈ map fst path -> tc G a node.
Proof.
  revert node. induction path as [|e outer IH]; intros node Hl He Ha.
  - inversion Ha.
  - destruct Hl as [<- Hl]. cbn [map] in Ha.
    apply elem_of_cons in Ha as [->|Ha].
    + apply tc_once, He. left.
    + apply tc_r with (fst e).
      * apply IH; [assumption| |assumption].
        intros e' He'. apply He. now right.
      * apply He. left.
Qed.

Lemma hit_ok_on_cycle h :
  hit_ok services serviceNames h ->
  on_cycle services serviceNames (snd (closing h)).
Proof.
  intros (Hl & He & Hin). unfold on_cycle.
  apply (linked_tc (reported h)); [|assumption|assumption].
  split; [reflexivity | assumption].
Qed.

Lemma hasCycle_deps_hits_post rec node path all_deps deps st log r :
  (forall dep path' st log r,
      linked path' dep ->
      (forall e, e ∈ path' -> G (fst e) (snd e)) ->
      inStack st = list_to_set (map fst path') ->
      rec dep path' st log = Ret r ->
      hits_post services serviceNames dep path' st log r) ->
  truthy (depends_on_of services node) = true ->
  dependency_names (depends_on_of services node) = Ret all_deps ->
  (forall d, d ∈ deps -> d ∈ all_deps) ->
  linked path node ->
  (forall e, e ∈ path -> G (fst e) (snd e)) ->
  inStack st = {[node]} ∪ list_to_set (map fst path) ->
  node ∈ visited st ->
  hasCycle_deps_hits rec serviceNames node path deps st log = Ret r ->
  hits_deps_post services serviceNames node path st log r.
Proof.
  intros Hrec Ht Hd Hsub Hl He. revert st log.
  induction deps as [|dep rest IH]; intros st log Hstack Hnode Hrun;
    cbn [hasCycle_deps_hits] in Hrun.
  - injection Hrun as <-. cbn. auto.
  - assert (Hrest : forall d, d ∈ rest -> d ∈ all_deps)
      by (intros d Hin; apply Hsub; now right).
    destruct (includes serviceNames dep) eqn:Hdef; [|now apply IH].
    assert (Hedge : G node dep)
      by (apply (edge_intro services serviceNames node all_deps);
          [assumption|assumption|apply Hsub; left|assumption]).
    assert (Hl' : linked ((node, dep) :: path) dep)
      by (split; [reflexivity|assumption]).
    assert (He' : forall e, e ∈ (node, dep) :: path -> G (fst e) (snd e))
      by (intros e [->|Hin]%elem_of_cons; [assumption | now apply He]).
    assert (Hstack' : inStack st = list_to_set (map fst ((node, dep) :: path)))
      by (rewrite Hstack; reflexivity).
    cbv zeta in Hrun.
    destruct (rec dep _ st _) as [[[found st1] log1]| |] eqn:Hcall;
      cbn [bind] in Hrun; try discriminate.
    apply Hrec in Hcall; [|assumption|assumption|assumption].
    destruct Hcall as (Hs1 & Hv1 & Hon & Hoff).
    case_bool_decide as Hin.
    + destruct (Hon Hin) as (-> & -> & ->). injection Hrun as <-.
      cbn [hits_deps_post unstack push inStack errors visited].
      split; [reflexivity|].
      split; [reflexivity|]. exists (node, dep), []. cbn [app map fst].
      split; [reflexivity|]. split; [reflexivity|]. split.
      * split; [exact Hl|]. split; [exact He'|].
        cbn [closing snd reported frames map fst].
        rewrite Hstack in Hin. apply elem_of_union in Hin as [Hin|Hin].
        -- apply elem_of_singleton in Hin as ->. left.
        -- right. now apply elem_of_list_to_set in Hin.
      * split; [apply NoDup_singleton|].
        intros x ->%list_elem_of_singleton. split; [assumption | now left].
    + specialize (Hoff Hin). destruct found.
      * destruct Hoff as (c & inner & -> & Herr & Hok & Hnd & Hfresh).
        injection Hrun as <-.
        cbn [hits_deps_post unstack push inStack errors visited].
        split; [assumption|].
        split; [now rewrite Hs1|]. exists c, (inner ++ [(node, dep)]).
        rewrite <- app_assoc. cbn [app].
        split; [reflexivity|]. split; [|split; [exact Hok|]].
        { rewrite Herr. cbn [map]. rewrite map_app, <- app_assoc.
          reflexivity. }
        rewrite app_comm_cons, map_app. cbn [map fst]. split.
        -- apply NoDup_app. split; [exact Hnd|]. split.
           ++ intros x Hx ->%list_elem_of_singleton.
              now apply (Hfresh node Hx).
           ++ apply NoDup_singleton.
        -- intros x [Hx|Hx]%elem_of_app.
           ++ destruct (Hfresh x Hx) as [Hx1 Hx2]. split; [assumption|].
              now right.
           ++ apply list_elem_of_singleton in Hx as ->.
              split; [now apply Hv1 | now left].
      * destruct Hoff as (-> & Herr).
        assert (Hstack1 : inStack st1
                          = {[node]} ∪ list_to_set (map fst path))
          by congruence.
        assert (Hnode1 : node ∈ visited st1) by now apply Hv1.
        apply (IH Hrest st1 log Hstack1 Hnode1) in Hrun.
        destruct r as [[found st2] log2]. cbn [hits_deps_post] in *.
        destruct Hrun as [Hv2 Hrun].
        split; [now transitivity (visited st1)|].
        rewrite Hs1, Herr in Hrun. destruct found; [|exact Hrun].
        destruct Hrun as (Hs2 & c & inner & Hlog & Herr2 & Hok & Hnd & Hfresh).
        split; [assumption|]. exists c, inner.
        split; [exact Hlog|]. split; [exact Herr2|]. split; [exact Hok|].
        split; [exact Hnd|].
        intros x Hx. destruct (Hfresh x Hx) as [Hx1 [->|Hx2]].
        -- split; [assumption | now left].
        -- split; [assumption|]. right. intros Hx3. now apply Hx2, Hv1.
Qed.

Lemma hasCycle_hits_post fuel node path st log r :
  linked path node ->
  (forall e, e ∈ path -> G (fst e) (snd e)) ->
  inStack st = list_to_set (map fst path) ->
  hasCycle_hits fuel services serviceNames node path st log = Ret r ->
  hits_post services serviceNames node path st log r.
Proof.
  revert node path st log r.
  induction fuel as [|fuel IH]; intros node path st log r Hl He Hstack Hrun;
    cbn [hasCycle_hits] in Hrun;
    (case_bool_decide as Hin;
     [ injection Hrun as <-; cbn; split; [reflexivity|];
       split; [reflexivity|];
       split; [auto | intros Hno; contradiction]
     | case_bool_decide as Hv;
       [ injection Hrun as <-; cbn; split; [reflexivity|];
         split; [reflexivity|];
         split; [intros Hyes; contradiction | auto] | ] ]);
    [discriminate|].
  cbv zeta in Hrun. fold (depends_on_of services node) in Hrun.
  assert (Hmark : visited st ⊆ visited (mark node st))
    by (cbn [mark visited]; apply union_subseteq_r).
  destruct (truthy (depends_on_of services node)) eqn:Ht.
  2:{ injection Hrun as <-. cbn [hits_post].
      split; [cbn [unstack inStack]; now apply unstack_mark_inStack|].
      split; [exact Hmark|].
      split; [intros Hyes; contradiction|]. intros _. cbn. auto. }
  destruct (dependency_names _) as [deps| |] eqn:Hd; cbn [bind] in Hrun;
    try discriminate.
  destruct (hasCycle_deps_hits _ _ _ _ _ _ _) as [[[found st2] log2]| |]
    eqn:Hloop; cbn [bind] in Hrun; try discriminate.
  assert (Hstack1 : inStack (mark node st)
                    = {[node]} ∪ list_to_set (map fst path))
    by (cbn [mark inStack]; now rewrite Hstack).
  assert (Hnode : node ∈ visited (mark node st))
    by (cbn [mark visited]; apply elem_of_union_l; now apply elem_of_singleton).
  pose proof (hasCycle_deps_hits_post _ node path deps deps _ _ _
                IH Ht Hd (fun d H => H) Hl He Hstack1 Hnode Hloop) as Hpost.
  clear Hloop. cbn [hits_deps_post] in Hpost. destruct Hpost as [Hv2 Hpost].
  destruct found.
  - destruct Hpost as (Hs2 & c & inner & Hlog & Herr & Hok & Hnd & Hfresh).
    injection Hrun as <-. cbn [hits_post].
    split; [rewrite Hs2; now apply unstack_mark_inStack|].
    split; [now transitivity (visited (mark node st))|].
    split; [intros Hyes; contradiction|]. intros _.
    exists c, inner.
    split; [exact Hlog|]. split; [exact Herr|]. split; [exact Hok|].
    split; [exact Hnd|].
    intros x Hx. destruct (Hfresh x Hx) as [Hx1 [->|Hx2]].
    + now split.
    + split; [assumption|]. intros Hx3. now apply Hx2, Hmark.
  - destruct Hpost as (Hs2 & -> & Herr). injection Hrun as <-.
    cbn [hits_post unstack inStack errors visited].
    split; [rewrite Hs2; now apply unstack_mark_inStack|].
    split; [now transitivity (visited (mark node st))|].
    split; [intros Hyes; contradiction|]. intros _. now split.
Qed.

(** The whole cycle check: every call from the outer loop meets at most
    one back edge, and reports the closing edge and the edges of the calls
    in progress for it; no node is the source of two reported pairs. *)
Lemma check_cycles_hits_post fuel todo st log st' log' :
  inStack st = ∅ ->
  check_cycles_hits fuel services serviceNames todo st log = Ret (st', log') ->
  inStack st' = ∅ /\
  visited st ⊆ visited st' /\
  exists hits,
    log' = log ++ hits /\
    errors st' = errors st ++ hit_diagnostics hits /\
    length hits <= length todo /\
    (forall h, h ∈ hits -> hit_ok services serviceNames h) /\
    fresh_sources st st' (flat_map reported hits).
Proof.
  revert st log. induction todo as [|name rest IH]; intros st log Hempty Hrun;
    cbn [check_cycles_hits] in Hrun.
  - injection Hrun as <- <-. split; [assumption|]. split; [reflexivity|].
    exists [].
    unfold hit_diagnostics. cbn [flat_map length]. rewrite !app_nil_r.
    split; [reflexivity|]. split; [reflexivity|]. split; [lia|].
    split; [intros h Hh; inversion Hh|].
    split; [constructor | intros x Hx; inversion Hx].
  - destruct (hasCycle_hits _ _ _ _ _ _ _) as [[[found st1] log1]| |]
      eqn:Hcall; cbn [bind] in Hrun; try discriminate.
    apply hasCycle_hits_post in Hcall;
      [ | exact I | intros e Hin; inversion Hin
        | rewrite Hempty; reflexivity ].
    destruct Hcall as (Hs1 & Hv1 & _ & Hoff).
    assert (Hno : name ∉ inStack st)
      by (rewrite Hempty; apply not_elem_of_empty).
    specialize (Hoff Hno).
    apply IH in Hrun; [|congruence].
    destruct Hrun as (Hs' & Hv' & hits & -> & Herr & Hlen & Hok & Hnd & Hfresh).
    split; [assumption|]. split; [now transitivity (visited st1)|].
    destruct found.
    + destruct Hoff as (c & inner & -> & Herr1 & Hok1 & Hnd1 & Hfresh1).
      rewrite app_nil_r in *.
      exists (mkHit c inner :: hits).
      split; [now rewrite <- app_assoc|].
      split; [|split; [|split]].
      * rewrite Herr, Herr1. unfold hit_diagnostics.
        cbn [flat_map reported closing frames].
        rewrite <- app_assoc. reflexivity.
      * cbn [length]. lia.
      * intros h [->|Hin]%elem_of_cons; [assumption | now apply Hok].
      * unfold fresh_sources. cbn [flat_map reported closing frames].
        rewrite map_app. split.
        -- apply NoDup_app. split; [exact Hnd1|]. split; [|exact Hnd].
           intros x Hx1 Hx2. apply (Hfresh x Hx2). now apply (Hfresh1 x Hx1).
        -- intros x [Hx|Hx]%elem_of_app.
           ++ destruct (Hfresh1 x Hx) as [Hx1 Hx2].
              split; [now apply Hv'|assumption].
           ++ destruct (Hfresh x Hx) as [Hx1 Hx2].
              split; [assumption|]. intros Hx3. now apply Hx2, Hv1.
    + destruct Hoff as (-> & Herr1). exists hits.
      split; [reflexivity|]. split; [congruence|].
      split; [cbn [length]; lia|]. split; [assumption|].
      split; [assumption|].
      intros x Hx. destruct (Hfresh x Hx) as [Hx1 Hx2].
      split; [assumption|]. intros Hx3. now apply Hx2, Hv1.
Qed.

End BackEdges.

(** C1: in every run of [validate] that returns, the cycle check is the
    search below, and for each edge it meets that leads into a node on
    the stack (a logged back edge, with the calls in progress at that
    moment) the result holds the diagnostic of that closing edge: an
    error, without a path, whose message names the two ends of the edge.
    That edge is an edge of the dependency graph, its target is the node
    of one of the calls in progress, and so it lies on a cycle.  The
    closing-edge diagnostic is followed by one diagnostic of the same form
    for the edge of every call in progress, innermost first, and these are
    all the circular-dependency diagnostics of the result; no service is
    the source of two reported edges, so each closing edge is reported
    once.  Every call from the outer loop meets at most one back edge, and
    at least one is met whenever the graph has a cycle. *)
Theorem validate_reports_back_edges (doc : value) (ds : list ValidationError) :
  validate doc = Ret ds ->
  let services := get_prop doc "services" in
  let serviceNames := Object_keys services in
  exists pre st hits,
    check_cycles_hits (length serviceNames) services serviceNames
      serviceNames (mkState ∅ ∅ pre) [] = Ret (st, hits) /\
    errors st = ds /\
    not_circular pre /\
    ds = pre ++ hit_diagnostics hits /\
    length hits <= length serviceNames /\
    NoDup (map fst (flat_map reported hits)) /\
    ((exists node, on_cycle services serviceNames node) -> hits <> []) /\
    forall h, h ∈ hits ->
      let node := fst (closing h) in
      let dep := snd (closing h) in
      let e := Diag.circular node dep in
      e ∈ ds /\
      severity e = SevError /\
      message e = "Circular dependency detected involving " +:+ quoted node
                  +:+ " and " +:+ quoted dep +:+ "." /\
      path e = None /\
      edge services serviceNames node dep /\
      dep ∈ node :: map fst (frames h) /\
      linked (frames h) node /\
      (forall f, f ∈ frames h -> edge services serviceNames (fst f) (snd f)) /\
      on_cycle services serviceNames dep.
Proof.
  intros Hval services serviceNames.
  destruct (validate_cycle_part doc ds Hval) as (pre & st & Hpre & Hrun & ->).
  fold services serviceNames in Hrun.
  rewrite <- (erase_check_cycles_hits _ _ _ _ _ []) in Hrun.
  destruct (check_cycles_hits _ _ _ _ _ _) as [[st0 hits]| |] eqn:Hhits;
    cbn in Hrun; try discriminate.
  injection Hrun as ->.
  destruct (check_cycles_hits_post services serviceNames _ _
              (mkState ∅ ∅ pre) [] st hits eq_refl Hhits)
    as (_ & _ & hits' & Hlog & Herr & Hlen & Hok & Hnd & _).
  cbn [app] in Hlog. subst hits'. cbn [errors] in Herr.
  exists pre, st, hits.
  split; [exact Hhits|]. split; [reflexivity|]. split; [assumption|].
  split; [assumption|]. split; [assumption|]. split; [assumption|]. split.
  - intros (node & Hcyc) ->. unfold hit_diagnostics in Herr.
    cbn [flat_map] in Herr. rewrite app_nil_r in Herr.
    assert (Hinit : explored_ok services serviceNames (mkState ∅ ∅ pre))
      by (intros v [Hv _]; cbn in Hv; now apply not_elem_of_empty in Hv).
    assert (Hrun : check_cycles (length serviceNames) services serviceNames
                     serviceNames (mkState ∅ ∅ pre) = Ret st)
      by (rewrite <- (erase_check_cycles_hits _ _ _ _ _ []), Hhits;
          reflexivity).
    destruct (check_cycles_complete services serviceNames _ _
                (mkState ∅ ∅ pre) st Hinit eq_refl Hrun Herr)
      as (_ & Hok' & Hcl).
    apply on_cycle_is_service in Hcyc as Hin.
    now apply (Hok' node (Hcl node Hin)).
  - intros h Hh node dep e. specialize (Hok h Hh).
    pose proof (hit_ok_on_cycle services serviceNames h Hok) as Hcyc.
    destruct Hok as (Hl & He & Hin).
    split.
    { rewrite Herr. apply elem_of_app. right. unfold hit_diagnostics.
      apply list_elem_of_In, in_flat_map. exists h.
      split; [now apply list_elem_of_In|]. left. reflexivity. }
    split; [reflexivity|]. split; [reflexivity|]. split; [reflexivity|].
    split; [apply (He (closing h)); left|].
    split; [exact Hin|]. split; [exact Hl|].
    split; [|exact Hcyc].
    intros f Hf. apply He. now right.
Qed.

Lemma validate_reports_back_edges_witness :
  validate doc_three
  = Ret [Diag.circular "B" "A"; Diag.circular "A" "B"; Diag.circular "C" "A"]
  /\
  exists pre st,
    check_cycles_hits 3 (get_prop doc_three "services") ["C"; "A"; "B"]
      ["C"; "A"; "B"] (mkState ∅ ∅ pre) []
    = Ret (st, [mkHit ("B", "A") [("A", "B"); ("C", "A")]]) /\
    Diag.circular "B" "A" ∈ errors st /\
    on_cycle (get_prop doc_three "services") ["C"; "A"; "B"] "A".
Proof.
  split; [exact validate_doc_three|].
  destruct (validate_reports_back_edges doc_three _ validate_doc_three)
    as (pre & st & hits & Hrun & Hds & Hpre & Hsplit & _ & _ & _ & Hhit).
  assert (Hnil : pre = []).
  { destruct pre as [|d pre]; [reflexivity|]. exfalso.
    apply Forall_cons in Hpre as [Hd _].
    injection Hsplit as <- _. discriminate Hd. }
  subst pre. exists [], st.
  assert (Heq : check_cycles_hits 3 (get_prop doc_three "services")
                  ["C"; "A"; "B"] ["C"; "A"; "B"] (mkState ∅ ∅ []) []
                = Ret (mkState {["C"; "A"; "B"]} ∅
                         [Diag.circular "B" "A"; Diag.circular "A" "B";
                          Diag.circular "C" "A"],
                       [mkHit ("B", "A") [("A", "B"); ("C", "A")]]))
    by (vm_compute; reflexivity).
  change (check_cycles_hits 3 (get_prop doc_three "services")
            ["C"; "A"; "B"] ["C"; "A"; "B"] (mkState ∅ ∅ []) []
          = Ret (st, hits)) in Hrun.
  rewrite Heq in Hrun. injection Hrun as <- <-.
  split; [reflexivity|].
  destruct (Hhit (mkHit ("B", "A") [("A", "B"); ("C", "A")]))
    as (Hin & _ & _ & _ & _ & _ & _ & _ & Hcyc); [left|].
  split; [|exact Hcyc].
  cbn [errors]. left.
Defined.

(** X3: every circular-dependency diagnostic of [validate] names a real
    edge of the dependency graph, from a service to one of the defined
    services it depends on, and from the target of that edge a cycle of the
    graph can be reached; the diagnostics before them are not
    circular-dependency diagnostics. *)
Theorem validate_circular_sound (doc : value) (ds : list ValidationError) :
  validate doc = Ret ds ->
  let services := get_prop doc "services" in
  let serviceNames := Object_keys services in
  exists pre edges,
    ds = pre ++ map circ edges /\
    not_circular pre /\
    forall e, e ∈ edges ->
      edge services serviceNames (fst e) (snd e) /\
      reaches_cycle services serviceNames (snd e).
Proof.
  intros Hval services serviceNames.
  destruct (validate_cycle_part doc ds Hval) as (pre & st & Hpre & Hrun & ->).
  destruct (check_cycles_sound services serviceNames _ _ (mkState ∅ ∅ pre) st
              eq_refl Hrun)
    as (_ & edges & He & Hok).
  exists pre, edges. split; [exact He|]. split; assumption.
Qed.

(** X4: [validate] returns a circular-dependency diagnostic exactly when
    the dependency graph of the defined services has a cycle. *)
Theorem validate_circular_iff_cycle (doc : value) (ds : list ValidationError) :
  validate doc = Ret ds ->
  let services := get_prop doc "services" in
  let serviceNames := Object_keys services in
  (exists d, d ∈ ds /\ is_circular d = true)
  <-> exists node, on_cycle services serviceNames node.
Proof.
  intros Hval services serviceNames.
  destruct (validate_cycle_part doc ds Hval) as (pre & st & Hpre & Hrun & ->).
  destruct (check_cycles_sound services serviceNames _ _ (mkState ∅ ∅ pre) st
              eq_refl Hrun)
    as (_ & edges & He & Hok).
  cbn [errors] in He. split.
  - intros (d & Hd & Hcirc). rewrite He in Hd.
    apply elem_of_app in Hd as [Hd|Hd].
    + unfold not_circular in Hpre. rewrite Forall_forall in Hpre.
      rewrite (Hpre d Hd) in Hcirc. discriminate.
    + apply list_elem_of_fmap in Hd as (e & -> & Hin).
      destruct (Hok e Hin) as (_ & c & _ & Hc). now exists c.
  - intros (node & Hcyc). destruct edges as [|e edges].
    + exfalso. simpl in He. rewrite app_nil_r in He.
      assert (Hinit : explored_ok services serviceNames (mkState ∅ ∅ pre))
        by (intros v [Hv _]; cbn in Hv; set_solver).
      destruct (check_cycles_complete services serviceNames _ _
                  (mkState ∅ ∅ pre) st Hinit eq_refl Hrun He)
        as (_ & Hok' & Hcl).
      apply on_cycle_is_service in Hcyc as Hin.
      now apply (Hok' node (Hcl node Hin)).
    + exists (circ e). split; [|reflexivity].
      rewrite He. apply elem_of_app. right. left.
Qed.

Lemma validate_circular_sound_witness :
  exists pre edges,
    [Diag.circular "B" "A"; Diag.circular "A" "B"; Diag.circular "C" "A"]
    = pre ++ map circ edges /\
    not_circular pre /\
    forall e, e ∈ edges ->
      edge (get_prop doc_three "services")
        (Object_keys (get_prop doc_three "services")) (fst e) (snd e) /\
      reaches_cycle (get_prop doc_three "services")
        (Object_keys (get_prop doc_three "services")) (snd e).
Proof. exact (validate_circular_sound doc_three _ validate_doc_three). Defined.

Lemma validate_circular_iff_cycle_witness :
  exists node,
    on_cycle (get_prop doc_three "services")
      (Object_keys (get_prop doc_three "services")) node.
Proof.
  apply (validate_circular_iff_cycle doc_three _ validate_doc_three).
  exists (Diag.circular "B" "A"). split; [left | reflexivity].
Defined.

(** ** What a verdict of validity means *)

Lemma no_errors_app (l1 l2 : list ValidationError) :
  no_errors (l1 ++ l2) <-> no_errors l1 /\ no_errors l2.
Proof. apply Forall_app. Qed.

Lemma no_errors_flat_map {A : Type} (f : A -> list ValidationError)
    (l : list A) :
  no_errors (flat_map f l) <-> forall x, x ∈ l -> no_errors (f x).
Proof.
  induction l as [|x l IH]; simpl.
  - split; [intros _ x Hx; inversion Hx | constructor].
  - rewrite no_errors_app, IH. split.
    + intros [Hx Hl] y [->|Hy]%elem_of_cons; auto.
    + intros H. split; [apply H; left | intros y Hy; apply H; now right].
Qed.

Lemma no_errors_warning (d : ValidationError) :
  severity d = SevWarning -> no_errors [d].
Proof. intros H. repeat constructor. unfold is_error. now rewrite H. Qed.

Lemma no_errors_error (d : ValidationError) :
  severity d = SevError -> ~ no_errors [d].
Proof.
  intros H Hn. apply Forall_inv in Hn. unfold is_error in Hn.
  rewrite H in Hn. discriminate.
Qed.

Lemma no_errors_nil : no_errors [].
Proof. constructor. Qed.

(** The checks that only warn. *)
Lemma check_top_level_keys_no_errors root :
  no_errors (check_top_level_keys root).
Proof.
  apply no_errors_flat_map. intros key _.
  destruct (includes validTopLevelKeys key);
    [apply no_errors_nil | now apply no_errors_warning].
Qed.

Lemma check_version_no_errors root : no_errors (check_version root).
Proof.
  unfold check_version. destruct (is_undefined _);
    [apply no_errors_nil | now apply no_errors_warning].
Qed.

Lemma check_unknown_keys_no_errors name svcPath svc :
  no_errors (check_unknown_keys name svcPath svc).
Proof.
  apply no_errors_flat_map. intros key _.
  destruct (includes validServiceKeys key);
    [apply no_errors_nil | now apply no_errors_warning].
Qed.

Lemma check_ports_no_errors name svcPath ports :
  no_errors (check_ports name svcPath ports).
Proof.
  destruct ports; try apply no_errors_nil.
  apply no_errors_flat_map. intros port _. unfold check_port.
  destruct port; try apply no_errors_nil;
    destruct (negb _ && negb _);
    solve [apply no_errors_nil | now apply no_errors_warning].
Qed.

Lemma check_volumes_no_errors root name svcPath volumes :
  no_errors (check_volumes root name svcPath volumes).
Proof.
  destruct volumes; try apply no_errors_nil.
  apply no_errors_flat_map. intros vol _. unfold check_volume.
  destruct vol; try apply no_errors_nil.
  destruct (negb _ && negb _ && negb _); [|apply no_errors_nil].
  destruct (truthy _ && _ && _);
    [now apply no_errors_warning | apply no_errors_nil].
Qed.

(** The checks that push errors, and when they push none. *)
Lemma check_image_build_no_errors name svcPath svc :
  no_errors (check_image_build name svcPath svc)
  <-> truthy (get_prop svc "image") = true
      \/ truthy (get_prop svc "build") = true.
Proof.
  unfold check_image_build.
  destruct (truthy (get_prop svc "image")), (truthy (get_prop svc "build"));
    cbn [negb andb]; split; auto using no_errors_nil;
    try (intros [H|H]; discriminate).
  intros H. now apply no_errors_error in H.
Qed.

Lemma check_restart_no_errors name svcPath v e :
  check_restart name svcPath v = Ret e ->
  no_errors e
  <-> v = VUndefined \/
      exists restart,
        ToString v = Ret restart /\
        In (split_head ":" restart) validRestartPolicies.
Proof.
  unfold check_restart. destruct (is_undefined v) eqn:Hu; cbn [negb].
  - intros [= <-]. split; [|intros _; apply no_errors_nil].
    intros _. left. now destruct v.
  - assert (Hv : v <> VUndefined) by (intros ->; discriminate).
    destruct (ToString v) as [restart| |]; cbn [bind]; try discriminate.
    destruct (includes validRestartPolicies (split_head ":" restart)) eqn:Hin;
      cbn [negb]; intros [= <-].
    + split; [|intros _; apply no_errors_nil].
      intros _. right. exists restart. split; [reflexivity|].
      now apply includes_In.
    + split.
      * intros H. now apply no_errors_error in H.
      * intros [->|(restart' & [= <-] & H)]; [contradiction|].
        apply includes_In in H. congruence.
Qed.

Lemma check_dep_no_errors serviceNames name svcPath dep :
  no_errors (check_dep serviceNames name svcPath dep)
  <-> dep ∈ serviceNames /\ dep <> name.
Proof.
  unfold check_dep. rewrite no_errors_app.
  destruct (includes serviceNames dep) eqn:Hin; cbn [negb];
    destruct (String.eqb dep name) eqn:Heq.
  - apply String.eqb_eq in Heq. split.
    + intros [_ H]. now apply no_errors_error in H.
    + intros [_ H]. contradiction.
  - apply String.eqb_neq in Heq. apply includes_elem_of in Hin.
    split; [now split | intros _; split; apply no_errors_nil].
  - split.
    + intros [H _]. now apply no_errors_error in H.
    + intros [H _]. apply includes_elem_of in H. congruence.
  - split.
    + intros [H _]. now apply no_errors_error in H.
    + intros [H _]. apply includes_elem_of in H. congruence.
Qed.

Lemma dependency_names_falsy (v : value) :
  truthy v = false -> dependency_names v = Ret [].
Proof. destruct v; try reflexivity; discriminate. Qed.

Lemma check_depends_on_no_errors serviceNames name svcPath v e :
  check_depends_on serviceNames name svcPath v = Ret e ->
  no_errors e
  <-> (truthy v = true ->
       exists deps,
         dependency_names v = Ret deps /\
         forall dep, dep ∈ deps -> dep ∈ serviceNames /\ dep <> name).
Proof.
  unfold check_depends_on. destruct (truthy v) eqn:Ht.
  - destruct (dependency_names v) as [deps| |]; cbn [bind]; try discriminate.
    intros [= <-]. rewrite no_errors_flat_map. split.
    + intros H _. exists deps. split; [reflexivity|].
      intros dep Hdep.
      now apply (check_dep_no_errors serviceNames name svcPath dep), H.
    + intros H dep Hdep. destruct (H eq_refl) as (deps' & [= <-] & Hall).
      now apply (check_dep_no_errors serviceNames name svcPath dep), Hall.
  - intros [= <-]. split; [discriminate | intros _; apply no_errors_nil].
Qed.

Lemma check_environment_no_errors name svcPath v :
  no_errors (check_environment name svcPath v)
  <-> v = VUndefined \/ v = VNull \/ typeof v = TObject.
Proof.
  unfold check_environment.
  destruct v; cbn; split; intros H; auto using no_errors_nil;
    try (now apply no_errors_error in H);
    try (destruct H as [H|[H|H]]; discriminate).
Qed.

Lemma check_service_no_errors root serviceNames name def e :
  check_service root serviceNames name def = Ret e ->
  no_errors e <-> service_ok serviceNames name def.
Proof.
  unfold check_service, service_ok.
  destruct (not_object_or_null def) eqn:Ho.
  { intros [= <-]. split.
    - intros H. now apply no_errors_error in H.
    - intros [H _]. discriminate. }
  destruct (check_restart _ _ _) as [e_restart| |] eqn:Hr; cbn [bind];
    try discriminate.
  destruct (check_depends_on _ _ _ _) as [e_deps| |] eqn:Hd; cbn [bind];
    try discriminate.
  intros [= <-]. rewrite !no_errors_app.
  rewrite check_image_build_no_errors, check_environment_no_errors.
  rewrite (check_restart_no_errors _ _ _ _ Hr).
  rewrite (check_depends_on_no_errors _ _ _ _ _ Hd).
  pose proof (check_unknown_keys_no_errors name ("services." +:+ name) def).
  pose proof (check_ports_no_errors name ("services." +:+ name)
                (get_prop def "ports")).
  pose proof (check_volumes_no_errors root name ("services." +:+ name)
                (get_prop def "volumes")).
  tauto.
Qed.

Lemma check_service_ok_returns root serviceNames name def :
  service_ok serviceNames name def ->
  returns (check_service root serviceNames name def).
Proof.
  intros (Ho & _ & Hr & Hd & _). unfold check_service. rewrite Ho.
  assert (Hr' : returns (check_restart name ("services." +:+ name)
                           (get_prop def "restart"))).
  { unfold check_restart. destruct Hr as [->|(restart & -> & _)].
    - eexists; reflexivity.
    - destruct (negb (is_undefined _)); [|eexists; reflexivity].
      cbn [bind]. destruct (negb _); eexists; reflexivity. }
  assert (Hd' : returns (check_depends_on serviceNames name
                           ("services." +:+ name) (get_prop def "depends_on"))).
  { unfold check_depends_on.
    destruct (truthy (get_prop def "depends_on")); [|eexists; reflexivity].
    destruct (Hd eq_refl) as (deps & -> & _). eexists; reflexivity. }
  destruct Hr' as [e_restart ->]. destruct Hd' as [e_deps ->].
  eexists; reflexivity.
Qed.

Lemma check_services_no_errors root serviceNames entries e :
  check_services root serviceNames entries = Ret e ->
  no_errors e
  <-> forall name def, (name, def) ∈ entries ->
                       service_ok serviceNames name def.
Proof.
  revert e. induction entries as [|[name def] rest IH]; intros e; simpl.
  - intros [= <-]. split; [intros _ n d H; inversion H | constructor].
  - destruct (check_service _ _ _ _) as [e1| |] eqn:H1; cbn [bind];
      try discriminate.
    destruct (check_services _ _ _) as [e2| |] eqn:H2; cbn [bind];
      try discriminate.
    intros [= <-]. rewrite no_errors_app, (IH e2 eq_refl).
    rewrite (check_service_no_errors _ _ _ _ _ H1). split.
    + intros [Hd Hrest] n d [[= -> ->]|Hin]%elem_of_cons; auto.
    + intros H. split; [apply H; left | intros n d Hin; apply H; now right].
Qed.

Lemma check_services_ok_returns root serviceNames entries :
  (forall name def, (name, def) ∈ entries ->
                    service_ok serviceNames name def) ->
  returns (check_services root serviceNames entries).
Proof.
  induction entries as [|[name def] rest IH]; intros H; simpl;
    [eexists; reflexivity|].
  destruct (check_service_ok_returns root serviceNames name def) as [e1 ->];
    [apply H; left|].
  destruct IH as [e2 ->]; [intros n d Hin; apply H; now right|].
  eexists; reflexivity.
Qed.

Lemma assoc_elem_of k (l : list (string * value)) x :
  assoc k l = Some x -> (k, x) ∈ l.
Proof.
  induction l as [|[k' y] rest IH]; simpl; [discriminate|].
  destruct (String.eqb k k') eqn:E.
  - apply String.eqb_eq in E as ->. intros [= ->]. left.
  - intros H. right. now apply IH.
Qed.

Lemma get_prop_cases (v : value) (k : string) :
  get_prop v k = VUndefined \/ (k, get_prop v k) ∈ Object_entries v.
Proof.
  unfold get_prop. destruct (assoc k (Object_entries v)) as [x|] eqn:E;
    [right; now apply assoc_elem_of | now left].
Qed.

(** In a document whose services pass the per-service checks, the search
    does not raise. *)
Lemma services_ok_search_safe services :
  (forall name def, (name, def) ∈ Object_entries services ->
                    service_ok (Object_keys services) name def) ->
  ~ search_raises services.
Proof.
  intros Hall (node & msg & Hthrow).
  destruct (truthy (get_prop (get_prop services node) "depends_on")) eqn:Ht.
  2:{ rewrite dependency_names_falsy in Hthrow by exact Ht. discriminate. }
  destruct (get_prop_cases services node) as [Hu|Hin].
  - rewrite Hu in Ht. discriminate.
  - destruct (Hall _ _ Hin) as (_ & _ & _ & Hd & _).
    destruct (Hd Ht) as (deps & Hdeps & _). congruence.
Qed.

(** X5: [validate] returns without any error-severity diagnostic exactly
    for the documents described by [compose_ok]: a mapping whose [services]
    is truthy and of [typeof 'object'], each of whose services passes the
    image-or-build, restart, [depends_on] and environment requirements, and
    whose dependency graph has no cycle.  Warnings do not matter. *)
Theorem valid_verdict (doc : value) :
  compose_ok doc <-> exists ds, validate doc = Ret ds /\ no_errors ds.
Proof.
  unfold compose_ok. cbv zeta. split.
  - intros ([props ->] & Ht & Hty & Hall & Hacyc).
    set (services := get_prop (VObj props) "services") in *.
    assert (Ho : not_object_or_null services = false)
      by (destruct services; try discriminate; reflexivity).
    rewrite validate_services by assumption. cbv zeta. fold services.
    destruct (check_services_ok_returns (VObj props) (Object_keys services)
                (Object_entries services) Hall) as [errors1 Hsvc].
    rewrite Hsvc. cbn [bind].
    set (pre := (check_top_level_keys (VObj props)
                 ++ check_version (VObj props)) ++ errors1).
    assert (Hpre : no_errors pre).
    { subst pre. rewrite !no_errors_app. repeat split.
      - apply check_top_level_keys_no_errors.
      - apply check_version_no_errors.
      - now apply (check_services_no_errors _ _ _ _ Hsvc). }
    pose proof (check_cycles_outcome services pre) as Hout. cbv zeta in Hout.
    destruct (check_cycles _ _ _ _ _) as [st|msg|] eqn:Hrun; cbn [bind].
    + destruct (check_cycles_sound services (Object_keys services) _ _
                  (mkState ∅ ∅ pre) st eq_refl Hrun)
        as (_ & edges & He & Hok).
      exists (errors st). split; [reflexivity|].
      destruct edges as [|e edges].
      * rewrite He. simpl. now rewrite app_nil_r.
      * exfalso. destruct (Hok e ltac:(left)) as (_ & c & _ & Hc).
        apply Hacyc. now exists c.
    + exfalso. now apply (services_ok_search_safe services Hall).
    + destruct Hout.
  - intros (ds & Hval & Hds).
    destruct (validate_cases doc ds Hval)
      as [[_ ->]|[Hobj [[_ ->]|[(_ & _ & ->)|(Ht & Hty & Hrun)]]]].
    + now apply no_errors_error in Hds.
    + apply no_errors_app in Hds as [_ Hds].
      now apply no_errors_error in Hds.
    + apply no_errors_app in Hds as [_ Hds].
      now apply no_errors_error in Hds.
    + destruct Hrun as (errors1 & st & Hsvc & Hcyc & ->).
      set (services := get_prop doc "services") in *.
      set (pre := (check_top_level_keys doc ++ check_version doc) ++ errors1)
        in *.
      destruct (check_cycles_sound services (Object_keys services) _ _
                  (mkState ∅ ∅ pre) st eq_refl Hcyc)
        as (_ & edges & He & Hok).
      cbn [errors] in He. rewrite He in Hds.
      apply no_errors_app in Hds as [Hpre Hedges].
      assert (edges = []) as ->.
      { destruct edges as [|e edges]; [reflexivity|].
        apply Forall_inv in Hedges. discriminate. }
      simpl in He. rewrite app_nil_r in He.
      split; [assumption|]. split; [assumption|]. split; [assumption|].
      split.
      * subst pre. apply no_errors_app in Hpre as [_ Herr1].
        now apply (check_services_no_errors _ _ _ _ Hsvc).
      * intros (node & Hnode).
        assert (Hinit : explored_ok services (Object_keys services)
                          (mkState ∅ ∅ pre))
          by (intros v [Hv _]; cbn in Hv; set_solver).
        destruct (check_cycles_complete services (Object_keys services) _ _
                    (mkState ∅ ∅ pre) st Hinit eq_refl Hcyc He)
          as (_ & Hok' & Hcl).
        apply on_cycle_is_service in Hnode as Hin.
        now apply (Hok' node (Hcl node Hin)).
Qed.

(** ** The port formats *)

Lemma Matches_Star_Class (p : ascii -> bool) (s : string) :
  Matches (Star (Class p)) s <-> all_chars p s = true.
Proof.
  split.
  - intros H. remember (Star (Class p)) as r eqn:Er.
    induction H as [| | | | | |r0 s1 s2 H1 _ _ IH2]; try discriminate.
    + reflexivity.
    + injection Er as ->. apply Matches_Class_inv in H1 as (c & -> & Hc).
      simpl. rewrite Hc. now apply IH2.
  - induction s as [|c s IH]; simpl; [constructor|].
    intros [Hc Hs]%andb_true_iff.
    exact (MStarApp _ (String c "") s (MClass p c Hc) (IH Hs)).
Qed.

Lemma Matches_plus_Class (p : ascii -> bool) (s : string) :
  Matches (plus (Class p)) s <-> s <> "" /\ all_chars p s = true.
Proof.
  unfold plus. split.
  - intros H. apply Matches_Seq_inv in H as (s1 & s2 & -> & H1 & H2).
    apply Matches_Class_inv in H1 as (c & -> & Hc).
    apply Matches_Star_Class in H2. simpl. rewrite Hc, H2.
    split; [discriminate | reflexivity].
  - intros [Hne Hs]. destruct s as [|c s]; [contradiction|].
    simpl in Hs. apply andb_true_iff in Hs as [Hc Hs].
    exact (MSeq _ _ (String c "") s (MClass p c Hc)
             (proj2 (Matches_Star_Class p s) Hs)).
Qed.

Lemma Matches_opt (r : regex) (s : string) :
  Matches (opt r) s <-> s = "" \/ Matches r s.
Proof.
  unfold opt. split.
  - intros H. apply Matches_Alt_inv in H as [H|H];
      [left; now apply Matches_Eps_inv | now right].
  - intros [->|H]; [apply MAltL; constructor | now apply MAltR].
Qed.

Lemma Matches_chr (c : ascii) (s : string) :
  Matches (chr c) s <-> s = String c "".
Proof.
  unfold chr. split.
  - intros H. apply Matches_Class_inv in H as (c' & -> & Hc).
    apply Ascii.eqb_eq in Hc. now subst.
  - intros ->. constructor. apply Ascii.eqb_refl.
Qed.

Lemma Matches_Seq (r1 r2 : regex) (s : string) :
  Matches (Seq r1 r2) s
  <-> exists s1 s2, s = s1 +:+ s2 /\ Matches r1 s1 /\ Matches r2 s2.
Proof.
  split; [apply Matches_Seq_inv|].
  intros (s1 & s2 & -> & H1 & H2). now constructor.
Qed.

Lemma Matches_portspec (s : string) :
  Matches re_portspec s <-> port_spec s.
Proof.
  unfold re_portspec, port_spec, re_d, digits. rewrite Matches_Seq. split.
  - intros (a & t & -> & Ha & Ht). apply Matches_plus_Class in Ha.
    apply Matches_opt in Ht as [->|Ht].
    + left. now rewrite append_nil_r.
    + right. apply Matches_Seq in Ht as (u & b & -> & Hu & Hb).
      apply Matches_Class_inv in Hu as (sep & -> & Hsep).
      apply Matches_plus_Class in Hb. exists a, sep, b.
      repeat split; try tauto.
      apply orb_true_iff in Hsep as [H|H]; apply Ascii.eqb_eq in H; auto.
  - intros [Hd|(a & sep & b & -> & Ha & Hb & Hsep)].
    + exists s, "". rewrite append_nil_r. split; [reflexivity|].
      split; [now apply Matches_plus_Class | apply Matches_opt; now left].
    + exists a, (String sep b). split; [reflexivity|].
      split; [now apply Matches_plus_Class|].
      apply Matches_opt. right.
      apply (MSeq _ _ (String sep "") b);
        [|now apply Matches_plus_Class].
      constructor. destruct Hsep as [->| ->]; reflexivity.
Qed.

Lemma Matches_proto (s : string) : Matches re_proto s <-> port_proto s.
Proof.
  unfold re_proto, port_proto, re_w, word. rewrite Matches_opt. split.
  - intros [->|H]; [now left|]. right.
    apply Matches_Seq in H as (u & w & -> & Hu & Hw).
    apply Matches_chr in Hu as ->. apply Matches_plus_Class in Hw.
    now exists w.
  - intros [->|(w & -> & Hw)]; [now left|]. right.
    apply (MSeq _ _ (String "/" "") w);
      [now apply Matches_chr | now apply Matches_plus_Class].
Qed.

Lemma usual_portb_shape (s : string) :
  usual_portb s = true -> port_shape s.
Proof.
  rewrite usual_portb_spec. unfold usual_port, port_shape,
    port_re_bare, port_re_mapped.
  intros [H|H].
  - apply Matches_Seq in H as (body & proto & -> & Hb & Hp).
    exists body, proto. split; [reflexivity|].
    split; [now apply Matches_proto|]. left. now apply Matches_portspec.
  - apply Matches_Seq in H as (host & t & -> & Hh & Ht).
    apply Matches_Seq in Ht as (u & t' & -> & Hu & Ht').
    apply Matches_Seq in Ht' as (container & proto & -> & Hc & Hp).
    apply Matches_chr in Hu as ->.
    exists (host +:+ String ":" container), proto.
    split; [now rewrite append_assoc|].
    split; [now apply Matches_proto|]. right.
    exists host, container. split; [reflexivity|].
    split; now apply Matches_portspec.
Qed.

(** X6: the ports check accepts exactly the strings of the shape
    [spec] or [spec:spec], followed by an optional [/word], where a spec is
    a number or two numbers joined by [:] or [-]. *)
Theorem usual_port_shape (s : string) :
  usual_portb s = true <-> port_shape s.
Proof.
  split; [apply usual_portb_shape|].
  rewrite usual_portb_spec. unfold usual_port, port_shape,
    port_re_bare, port_re_mapped.
  intros (body & proto & -> & Hp & [Hb|(host & container & -> & Hh & Hc)]).
  - left. apply MSeq; [now apply Matches_portspec | now apply Matches_proto].
  - right. rewrite append_assoc. apply MSeq; [now apply Matches_portspec|].
    apply (MSeq _ _ (String ":" "") (container +:+ proto));
      [now apply Matches_chr|].
    apply MSeq; [now apply Matches_portspec | now apply Matches_proto].
Qed.











(** ** Diagnostics without a path *)

Lemma all_located_flat_map {A : Type} (f : A -> list ValidationError)
    (l : list A) :
  (forall x, all_located (f x)) -> all_located (flat_map f l).
Proof.
  intros H. unfold all_located. induction l as [|x l IH]; simpl.
  - constructor.
  - apply Forall_app. split; [apply H | exact IH].
Qed.

Lemma all_located_app (l1 l2 : list ValidationError) :
  all_located l1 -> all_located l2 -> all_located (l1 ++ l2).
Proof. intros H1 H2. apply Forall_app. now split. Qed.

Ltac located_block :=
  repeat first
    [ apply Forall_nil_2
    | apply Forall_cons; split; [reflexivity|]
    | apply all_located_flat_map; intros ?
    | match goal with |- context [if ?b then _ else _] => destruct b end
    | match goal with |- context [match ?v with _ => _ end] => destruct v end ].

Lemma check_top_level_keys_located root :
  all_located (check_top_level_keys root).
Proof. unfold check_top_level_keys, all_located. located_block. Qed.

Lemma check_version_located root : all_located (check_version root).
Proof. unfold check_version, all_located. located_block. Qed.

Lemma check_restart_located name svcPath v ds :
  check_restart name svcPath v = Ret ds -> all_located ds.
Proof.
  unfold check_restart, all_located.
  destruct (negb (is_undefined v)); [|intros [= <-]; constructor].
  destruct (ToString v) as [restart| |]; cbn [bind]; try discriminate.
  destruct (negb _); intros [= <-]; located_block.
Qed.

Lemma check_depends_on_located serviceNames name svcPath v ds :
  check_depends_on serviceNames name svcPath v = Ret ds -> all_located ds.
Proof.
  unfold check_depends_on, all_located.
  destruct (truthy v); [|intros [= <-]; constructor].
  destruct (dependency_names v) as [deps| |]; cbn [bind]; try discriminate.
  intros [= <-]. apply all_located_flat_map. intros dep.
  unfold check_dep. apply all_located_app; unfold all_located;
    located_block.
Qed.

Lemma check_service_located root serviceNames name def ds :
  check_service root serviceNames name def = Ret ds -> all_located ds.
Proof.
  unfold check_service. destruct (not_object_or_null def).
  { intros [= <-]. unfold all_located. located_block. }
  destruct (check_restart _ _ _) as [e_restart| |] eqn:Hr; cbn [bind];
    try discriminate.
  destruct (check_depends_on _ _ _ _) as [e_deps| |] eqn:Hd; cbn [bind];
    try discriminate.
  intros [= <-].
  repeat apply all_located_app.
  - unfold check_image_build, all_located. located_block.
  - unfold check_unknown_keys, all_located. located_block.
  - now apply check_restart_located in Hr.
  - unfold check_ports, check_port, all_located. located_block.
  - now apply check_depends_on_located in Hd.
  - unfold check_environment, all_located. located_block.
  - unfold check_volumes, check_volume, all_located. located_block.
Qed.

Lemma check_services_located root serviceNames entries ds :
  check_services root serviceNames entries = Ret ds -> all_located ds.
Proof.
  revert ds. induction entries as [|[name def] rest IH]; intros ds; simpl.
  - intros [= <-]. constructor.
  - destruct (check_service _ _ _ _) as [e| |] eqn:He; cbn [bind];
      try discriminate.
    destruct (check_services _ _ _) as [es| |]; cbn [bind]; try discriminate.
    intros [= <-]. apply all_located_app.
    + now apply check_service_located in He.
    + now apply IH.
Qed.

(** X9: every warning [validate] returns carries a path; the only
    diagnostics without a path are the shape errors of the root and of
    [services] and the circular-dependency errors. *)
Theorem validate_warnings_have_path (doc : value)
    (ds : list ValidationError) (d : ValidationError) :
  validate doc = Ret ds -> d ∈ ds ->
  (severity d = SevWarning -> exists p, path d = Some p) /\
  (path d = None -> severity d = SevError /\ pathless d).
Proof.
  intros Hval Hd.
  assert (Htop : all_located (check_top_level_keys doc ++ check_version doc))
    by (apply all_located_app;
        [apply check_top_level_keys_located | apply check_version_located]).
  assert (Hgen : forall pre rest,
             all_located pre -> ds = pre ++ rest ->
             (forall x, x ∈ rest -> pathless x) ->
             (severity d = SevWarning -> exists p, path d = Some p) /\
             (path d = None -> severity d = SevError /\ pathless d)).
  { intros pre rest Hpre -> Hrest.
    apply elem_of_app in Hd as [Hd|Hd].
    - unfold all_located in Hpre. rewrite Forall_forall in Hpre.
      specialize (Hpre d Hd). unfold has_path in Hpre.
      destruct (path d) as [p|]; [|discriminate].
      split; [intros _; now exists p | discriminate].
    - pose proof (Hrest d Hd) as Hp.
      destruct Hp as [->|[->|[->|(node & dep & ->)]]];
        (split; [discriminate | intros _; split; [reflexivity|]]);
        unfold pathless; eauto 6. }
  destruct (validate_cases doc ds Hval)
    as [[Hroot Hds]|[[props ->] [[Ht Hds]|[(Ht & Hty & Hds)|(Ht & Hty & Hrun)]]]].
  - apply (Hgen [] ds); [constructor | reflexivity|].
    rewrite Hds. intros x ->%list_elem_of_singleton. now left.
  - apply (Hgen _ _ Htop Hds).
    intros x ->%list_elem_of_singleton. right. now left.
  - apply (Hgen _ _ Htop Hds).
    intros x ->%list_elem_of_singleton. right. right. now left.
  - destruct Hrun as (errors1 & st & Hsvc & Hcyc & Hds).
    match type of Hcyc with
    | check_cycles _ _ _ _ ?st0 = _ =>
        destruct (check_cycles_sound _ _ _ _ st0 st eq_refl Hcyc)
          as (_ & edges & He & _)
    end.
    cbn [errors] in He. rewrite He in Hds.
    apply (Hgen _ _ (all_located_app _ _ Htop
                       (check_services_located _ _ _ _ Hsvc)) Hds).
    intros x (e & -> & _)%list_elem_of_fmap. right. right. right.
    now exists (fst e), (snd e).
Qed.

Lemma validate_warnings_have_path_witness :
  exists p, path Diag.obsolete_version = Some p.
Proof.
  apply (validate_warnings_have_path doc_versioned [Diag.obsolete_version]).
  - vm_compute. reflexivity.
  - left.
  - reflexivity.
Defined.
